(** * The traceparent header codec of package [trace] (core.go)

    A shallow embedding of [EncodeTraceparent] and [DecodeTraceparent]
    and of the pieces of the Go run time they rely on: unsigned 8-bit
    arithmetic, bounds-checked indexing and slicing, and
    [encoding/hex.Encode].  Go strings and byte slices are lists of
    bytes; the named results of [DecodeTraceparent] are a record that is
    threaded through the function body, so that a bare [return] hands
    back whatever the results hold at that point. *)

From Stdlib Require Import ZArith Lia List Strings.String Strings.Byte.
From stdpp Require Import base tactics option list.
Import ListNotations.

Local Open Scope Z_scope.

#[global] Instance byte_eq_dec : EqDecision byte := Byte.byte_eq_dec.

(** ** Machine integers *)

(** [uint8] values are the 256 constructors of [byte]; arithmetic goes
    through [Z] and wraps modulo 2^8. *)
Definition to_Z (b : byte) : Z := Z.of_N (Byte.to_N b).

Definition of_Z (z : Z) : byte :=
  default x00 (Byte.of_N (Z.to_N (z mod 256))).

Definition sub8 (a b : byte) : byte := of_Z (to_Z a - to_Z b).
Definition add8 (a b : byte) : byte := of_Z (to_Z a + to_Z b).
Definition shl8 (a : byte) (n : Z) : byte := of_Z (Z.shiftl (to_Z a) n).
Definition shr8 (a : byte) (n : Z) : byte := of_Z (Z.shiftr (to_Z a) n).
Definition and8 (a b : byte) : byte := of_Z (Z.land (to_Z a) (to_Z b)).

(** Go's [int], taken at 64 bits, two's complement. *)
Definition wrap_int (z : Z) : Z := (z + 2 ^ 63) mod 2 ^ 64 - 2 ^ 63.
Definition int_add (x y : Z) : Z := wrap_int (x + y).

(** A string literal as the bytes it denotes. *)
Definition bytes (s : string) : list byte := list_byte_of_string s.

(** ** Run-time effects

    A computation returns a value or stops in a run-time panic
    ([outcome = None]); on the way it records the indices at which it
    read the input string. *)
Record M (A : Type) : Type := MkM { reads : list nat; outcome : option A }.
Arguments MkM {A} _ _.
Arguments reads {A} _.
Arguments outcome {A} _.

#[global] Instance M_ret : MRet M := λ A a, MkM [] (Some a).

#[global] Instance M_bind : MBind M := λ A B f m,
  match m with
  | MkM l None => MkM l None
  | MkM l (Some a) => match f a with MkM l' o => MkM (l ++ l') o end
  end.

Definition panic {A : Type} : M A := MkM [] None.

(** [s[i]] on a string: panics when [i] is out of range. *)
Definition index (s : list byte) (i : nat) : M byte := MkM [i] (s !! i).

(** [s[lo:hi]] on a string that is then compared: panics unless
    [lo <= hi <= len(s)]; the bytes of the window are read. *)
Definition slice (s : list byte) (lo hi : nat) : M (list byte) :=
  MkM (seq lo (hi - lo))
      (if (lo <=? hi)%nat && (hi <=? length s)%nat
       then Some (take (hi - lo) (drop lo s)) else None).

(** [a[i]] and [a[i] = x] on an array or a byte slice. *)
Definition load (a : list byte) (i : nat) : M byte := MkM [] (a !! i).

Definition store (a : list byte) (i : nat) (x : byte) : M (list byte) :=
  if (i <? length a)%nat then mret (<[i := x]> a) else panic.

(** ** DecodeTraceparent *)

(** The named results [(ver, tid, pid, flg, err)]; [err] is the message
    of the [fmt.Errorf] value, [None] for [nil]. *)
Record results : Type := Results {
  ver : byte;
  tid : list byte;
  pid : list byte;
  flg : byte;
  err : option string
}.

Definition zero_results : results :=
  Results x00 (replicate 16 x00) (replicate 8 x00) x00 None.

Definition set_ver (v : byte) (r : results) : results :=
  Results v (tid r) (pid r) (flg r) (err r).
Definition set_tid (a : list byte) (r : results) : results :=
  Results (ver r) a (pid r) (flg r) (err r).
Definition set_pid (a : list byte) (r : results) : results :=
  Results (ver r) (tid r) a (flg r) (err r).
Definition set_flg (f : byte) (r : results) : results :=
  Results (ver r) (tid r) (pid r) f (err r).
Definition set_err (e : string) (r : results) : results :=
  Results (ver r) (tid r) (pid r) (flg r) (Some e).

(** The nibble test that the source repeats for [d1] and [d2]:
    [if d = c - '0'; d > 9 { if d = c - 'W'; d > 15 || d < 10 { fail } }]. *)
Definition hexval (c : byte) : option byte :=
  let d := sub8 c "0" in
  if 9 <? to_Z d then
    let d := sub8 c "W" in
    if (15 <? to_Z d) || (to_Z d <? 10) then None else Some d
  else Some d.

(** How an id loop ends: it runs to completion with the array filled and
    the running sum [val], or it executes [err = ...; return] with the
    array as filled so far. *)
Inductive loop_exit : Type :=
  | LoopDone (arr : list byte) (val : Z)
  | LoopReturn (arr : list byte) (e : string).

(** The two [for] loops of the source differ only in the offset of the
    first character (3 and 36), the number of iterations (16 and 8), the
    array they fill and the message; [cnt] counts the iterations left. *)
Fixpoint id_loop (header : list byte) (off : nat) (msg : string)
    (cnt i : nat) (arr : list byte) (val : Z) : M loop_exit :=
  match cnt with
  | O => mret (LoopDone arr val)
  | S cnt' =>
    c ← index header (off + Nat.shiftl i 1);
    match hexval c with
    | None => mret (LoopReturn arr msg)
    | Some d1 =>
      c ← index header (S off + Nat.shiftl i 1);
      match hexval c with
      | None => mret (LoopReturn arr msg)
      | Some d2 =>
        arr ← store arr i (add8 (shl8 d1 4) d2);
        b ← load arr i;
        id_loop header off msg cnt' (S i) arr (int_add val (to_Z b))
      end
    end
  end.

(** [header[2] != '-' || header[35] != '-' || header[52] != '-'],
    evaluated left to right with short circuit. *)
Definition dash_missing (header : list byte) : M bool :=
  c ← index header 2;
  if decide (c ≠ "-"%byte) then mret true else
  c ← index header 35;
  if decide (c ≠ "-"%byte) then mret true else
  c ← index header 52;
  mret (bool_decide (c ≠ "-"%byte)).

(** [switch header[53:] { case "00": flg = 0; case "01": flg = 1;
    default: ... }]: the value assigned to [flg], [None] in the default
    case. *)
Definition flag_case (f : list byte) : option byte :=
  if bool_decide (f = bytes "00") then Some x00
  else if bool_decide (f = bytes "01") then Some x01
  else None.

(** The body of the function, statement by statement; [r] is the current
    value of the named results and every [mret] is a bare [return]. *)
Definition DecodeTraceparent (header : list byte) : M results :=
  let r := zero_results in
  if negb (length header =? 55)%nat then
    mret (set_err "invalid length" r)
  else
  bad ← dash_missing header;
  if (bad : bool) then mret (set_err "invalid format" r) else
  (* version *)
  v ← slice header 0 2;
  if negb (bool_decide (v = bytes "00")) then
    mret (set_err "invalid version" r)
  else
  let r := set_ver x00 r in
  (* flag *)
  f ← slice header 53 (length header);
  match flag_case f with
  | None => mret (set_err "invalid flag" r)
  | Some b =>
  let r := set_flg b r in
  (* trace id *)
  e ← id_loop header 3 "invalid trace id" 16 0 (tid r) 0;
  match e with
  | LoopReturn a m => mret (set_err m (set_tid a r))
  | LoopDone a val =>
    let r := set_tid a r in
    if val =? 0 then mret (set_err "invalid trace id" r) else
    (* parent id *)
    e ← id_loop header 36 "invalid parent id" 8 0 (pid r) 0;
    match e with
    | LoopReturn a m => mret (set_err m (set_pid a r))
    | LoopDone a val =>
      let r := set_pid a r in
      if val =? 0 then mret (set_err "invalid parent id" r) else
      mret r
    end
  end
  end.

(** ** EncodeTraceparent *)

(** [const hextable = "0123456789abcdef"] of [encoding/hex]. *)
Definition hextable : list byte := bytes "0123456789abcdef".

(** A sub-slice [buf[lo:hi]] used as a destination: it shares the
    backing array, so it is kept as its bounds. *)
Record window : Type := Window { lo : nat; hi : nat }.

Definition subslice (buf : list byte) (l h : nat) : M window :=
  if (l <=? h)%nat && (h <=? length buf)%nat then mret (Window l h)
  else panic.

(** [dst[j] = x] through the window. *)
Definition wstore (buf : list byte) (w : window) (j : nat) (x : byte)
    : M (list byte) :=
  if (j <? hi w - lo w)%nat then store buf (lo w + j)%nat x else panic.

(** [Encode(dst, src)] of Go's standard package [encoding/hex]:
    [j := 0; for _, v := range src { dst[j] = hextable[v>>4];
       dst[j+1] = hextable[v&0x0f]; j += 2 }]. *)
Fixpoint hex_Encode (buf : list byte) (dst : window) (src : list byte)
    (j : nat) : M (list byte) :=
  match src with
  | [] => mret buf
  | v :: src' =>
    h ← load hextable (Z.to_nat (to_Z (shr8 v 4)));
    buf ← wstore buf dst j h;
    l ← load hextable (Z.to_nat (to_Z (and8 v x0f)));
    buf ← wstore buf dst (j + 1) l;
    hex_Encode buf dst src' (j + 2)
  end.

(** [tid] and [pid] are the slices [tid[:]] and [pid[:]] of the array
    arguments, of length 16 and 8. *)
Definition EncodeTraceparent (ver : byte) (tid pid : list byte) (flg : byte)
    : M (list byte) :=
  let header := replicate 55 x00 in
  header ← store header 2 "-";
  header ← store header 35 "-";
  header ← store header 52 "-";
  dst ← subslice header 0 2;
  header ← hex_Encode header dst [ver] 0;
  dst ← subslice header 3 35;
  header ← hex_Encode header dst tid 0;
  dst ← subslice header 36 52;
  header ← hex_Encode header dst pid 0;
  dst ← subslice header 53 (length header);
  header ← hex_Encode header dst [flg] 0;
  mret header.

(** ** Reference notions used in the statements *)

(** The lower-case hexadecimal digit for [n] in [0..15]. *)
Definition hexdigit (n : Z) : byte :=
  if n <? 10 then of_Z (to_Z "0" + n) else of_Z (to_Z "a" + (n - 10)).

(** The canonical alphabet ['0'..'9'], ['a'..'f'], by character code. *)
Definition is_lower_hex (c : byte) : Prop :=
  to_Z "0" <= to_Z c <= to_Z "9" \/ to_Z "a" <= to_Z c <= to_Z "f".

Definition is_upper_hex_letter (c : byte) : Prop :=
  to_Z "A" <= to_Z c <= to_Z "F".

(** Two lower-case hex characters per byte, high nibble first. *)
Definition hex_hi (b : byte) : byte := hexdigit (to_Z b / 16).
Definition hex_lo (b : byte) : byte := hexdigit (to_Z b mod 16).

Fixpoint hexstr (bs : list byte) : list byte :=
  match bs with
  | [] => []
  | b :: bs' => hex_hi b :: hex_lo b :: hexstr bs'
  end.

Definition dash : byte := "-"%byte.

(** The fixed layout [vv-t{32}-p{16}-ff]. *)
Definition layout (v : byte) (t p : list byte) (f : byte) : list byte :=
  hexstr [v] ++ dash :: hexstr t ++ dash :: hexstr p ++ dash :: hexstr [f].

Definition all_zero (bs : list byte) : Prop := Forall (λ b, b = x00) bs.

(** The additive checksum of the source, without the wrap-around. *)
Definition checksum (bs : list byte) : Z := foldr (λ b acc, to_Z b + acc) 0 bs.

(** The array after a loop has written [ts] from index [i] on. *)
Definition filled (arr : list byte) (i : nat) (ts : list byte) : list byte :=
  take i arr ++ ts ++ drop (i + length ts) arr.

Definition dashes_ok (h : list byte) : Prop :=
  h !! 2%nat = Some dash ∧ h !! 35%nat = Some dash ∧ h !! 52%nat = Some dash.

(** The header passes the length, dash, version and flag checks, and
    its flag characters stand for [f]. *)
Definition prefix_ok (h : list byte) (f : byte) : Prop :=
  length h = 55%nat ∧ dashes_ok h ∧ take 2 h = bytes "00" ∧
  ((drop 53 h = bytes "00" ∧ f = x00) ∨ (drop 53 h = bytes "01" ∧ f = x01)).

(** The character slots of the two ids. *)
Definition trace_chars (h : list byte) : list byte := take 32 (drop 3 h).
Definition parent_chars (h : list byte) : list byte := take 16 (drop 36 h).

(** A character of the id slot starting at [off] that the nibble test
    rejects, right after [n] well-formed pairs. *)
Definition rejected_at (h : list byte) (off n : nat) : Prop :=
  ∃ (j : nat) (c : byte),
    (j = off + 2 * n ∨ j = S off + 2 * n)%nat ∧ h !! j = Some c ∧
    hexval c = None.

Definition zeros (n : nat) : list byte := replicate n x00.

(** The results of [DecodeTraceparent], one rule per [return] of the
    source, in the order of the source. *)
Inductive decodes (h : list byte) : results → Prop :=
  | D_length :
      length h ≠ 55%nat →
      decodes h (Results x00 (zeros 16) (zeros 8) x00 (Some "invalid length"%string))
  | D_format :
      length h = 55%nat → ¬ dashes_ok h →
      decodes h (Results x00 (zeros 16) (zeros 8) x00 (Some "invalid format"%string))
  | D_version :
      length h = 55%nat → dashes_ok h → take 2 h ≠ bytes "00" →
      decodes h (Results x00 (zeros 16) (zeros 8) x00 (Some "invalid version"%string))
  | D_flag :
      length h = 55%nat → dashes_ok h → take 2 h = bytes "00" →
      drop 53 h ≠ bytes "00" → drop 53 h ≠ bytes "01" →
      decodes h (Results x00 (zeros 16) (zeros 8) x00 (Some "invalid flag"%string))
  | D_trace_char (f : byte) (ts : list byte) :
      prefix_ok h f →
      (length ts < 16)%nat →
      take (2 * length ts) (drop 3 h) = hexstr ts →
      rejected_at h 3 (length ts) →
      decodes h (Results x00 (ts ++ zeros (16 - length ts)) (zeros 8) f
                   (Some "invalid trace id"%string))
  | D_trace_zero (f : byte) (ts : list byte) :
      prefix_ok h f →
      length ts = 16%nat → trace_chars h = hexstr ts →
      all_zero ts →
      decodes h (Results x00 ts (zeros 8) f (Some "invalid trace id"%string))
  | D_parent_char (f : byte) (ts ps : list byte) :
      prefix_ok h f →
      length ts = 16%nat → trace_chars h = hexstr ts → ¬ all_zero ts →
      (length ps < 8)%nat →
      take (2 * length ps) (drop 36 h) = hexstr ps →
      rejected_at h 36 (length ps) →
      decodes h (Results x00 ts (ps ++ zeros (8 - length ps)) f
                   (Some "invalid parent id"%string))
  | D_parent_zero (f : byte) (ts ps : list byte) :
      prefix_ok h f →
      length ts = 16%nat → trace_chars h = hexstr ts → ¬ all_zero ts →
      length ps = 8%nat → parent_chars h = hexstr ps →
      all_zero ps →
      decodes h (Results x00 ts ps f (Some "invalid parent id"%string))
  | D_ok (f : byte) (ts ps : list byte) :
      prefix_ok h f →
      length ts = 16%nat → trace_chars h = hexstr ts → ¬ all_zero ts →
      length ps = 8%nat → parent_chars h = hexstr ps → ¬ all_zero ps →
      decodes h (Results x00 ts ps f None).

(** ** Sample inputs and auxiliary notions *)

(** The ids [01 02 .. 10] and [01 02 .. 08] and the header that carries
    them with version [00] and flags [01]. *)
Definition example_tid : list byte :=
  [x01; x02; x03; x04; x05; x06; x07; x08; x09; x0a; x0b; x0c; x0d; x0e; x0f; x10].

Definition example_pid : list byte := [x01; x02; x03; x04; x05; x06; x07; x08].

Definition example_header : list byte :=
  bytes "00-0102030405060708090a0b0c0d0e0f10-0102030405060708-01".

(** The positions of the trace-id and parent-id characters. *)
Definition id_position (j : nat) : Prop :=
  (3 <= j <= 34)%nat ∨ (36 <= j <= 51)%nat.

(** The messages of the errors that [DecodeTraceparent] builds. *)
Definition decode_errors : list string :=
  ["invalid length"; "invalid format"; "invalid version"; "invalid flag";
   "invalid trace id"; "invalid parent id"]%string.

(** The bytes that the loop over the slot at [off] has decoded when it
    fails: those of the well-formed pairs that precede the first rejected
    character, or all [cnt] bytes, all of them zero, when no character is
    rejected and the failure is the zero test after the loop. *)
Definition decoded_before_failure (h : list byte) (off cnt : nat)
    (ts : list byte) : Prop :=
  take (2 * length ts) (drop off h) = hexstr ts ∧
  (((length ts < cnt)%nat ∧ rejected_at h off (length ts)) ∨
   (length ts = cnt ∧ all_zero ts)).

(** Those raised before the first id character is looked at. *)
Definition early_errors : list string :=
  ["invalid length"; "invalid format"; "invalid version"; "invalid flag"]%string.

(** A header whose trace id breaks off after one well-formed pair, and
    what the decoder returns on it. *)
Definition partial_header : list byte :=
  bytes "00-ab0z0000000000000000000000000000-0102030405060708-01".

Definition partial_results : results :=
  Results x00 (xab :: zeros 15) (zeros 8) x01 (Some "invalid trace id"%string).

(** Headers with both ids all-zero, and with the parent id only. *)
Definition zero_ids_header : list byte :=
  bytes "00-00000000000000000000000000000000-0000000000000000-00".

Definition zero_parent_header : list byte :=
  bytes "00-0102030405060708090a0b0c0d0e0f10-0000000000000000-00".

(** ** Configuration and TraceCore (options.go, core.go)

    The collaborators that live outside the repository are parameters:
    the types of randomizers, entropy sources, exporters and collectors,
    [grand.New], [motel.NewSpanCollector], and the result of the call
    [grand.NewSource()], which is handed to [newConfiguration] as an
    argument.  An interface value that may be [nil] is an [option]; a
    run-time panic is the result [None]. *)

(** A Go [error] by its message; [WrapError] is what [fmt.Errorf] builds
    for the verb [%w], with the cause kept for [errors.Unwrap]. *)
Inductive error : Type :=
  | ErrorString (msg : string)
  | WrapError (msg : string) (cause : error).

Definition Error (e : error) : string :=
  match e with
  | ErrorString m => m
  | WrapError m _ => m
  end.

Definition Unwrap (e : error) : option error :=
  match e with
  | ErrorString _ => None
  | WrapError _ c => Some c
  end.

(** [fmt.Errorf(prefix + "%w", err)]. *)
Definition Errorf_w (prefix : string) (e : error) : error :=
  WrapError (prefix ++ Error e) e.

Section Core.

Context {Random Source Exporter Collector : Type}.

(** Modelled from the spec: the interface [Random], whose declaration is
    not among the sources, exposes one operation that fills the given
    buffer with random bytes and cannot fail.  A randomizer is taken by
    its state: [Fill g buf] is the state after the call and the
    contents of the buffer. *)
Context (Fill : Random → list byte → Random * list byte).
Context (grand_New : Source → Random).
Context (NewSpanCollector : list Exporter → Z → Z → Collector).

(** [type Configuration struct]; [batchTime] is a [time.Duration] and
    [batchCount] an [int], both only stored and passed on. *)
Record Configuration : Type := MkConfiguration {
  rand : option Random;
  batchTime : Z;
  batchCount : Z
}.

Record randOption : Type := MkRandOption { ro_rand : option Random }.

Record batchOption : Type := MkBatchOption {
  bo_batchTime : Z;
  bo_batchCount : Z
}.

(** [func (o *randOption) Configure(c *Configuration)]: the
    configuration that [c] points to after the call. *)
Definition randOption_Configure (o : randOption) (c : Configuration)
    : Configuration :=
  MkConfiguration (ro_rand o) (batchTime c) (batchCount c).

(** [func (o *batchOption) Configure(c *Configuration)]. *)
Definition batchOption_Configure (o : batchOption) (c : Configuration)
    : Configuration :=
  MkConfiguration (rand c) (bo_batchTime o) (bo_batchCount o).

(** A value of the interface [Option]: [nil], one of the two
    implementations of the package, or an implementation from elsewhere,
    given by what its [Configure] does to the configuration.  The
    pointers to [randOption] and [batchOption] are the non-nil ones that
    [UseRandomizer] and [UseBatching] build, and the [Configure] of an
    implementation from elsewhere is taken to return; a nil pointer of
    the two types, on which [Configure] panics, has no value here. *)
Inductive Option : Type :=
  | NilOption
  | RandOption (o : randOption)
  | BatchOption (o : batchOption)
  | ForeignOption (configure : Configuration → Configuration).

Definition UseRandomizer (rand : option Random) : Option :=
  RandOption (MkRandOption rand).

Definition UseBatching (maxTime maxCount : Z) : Option :=
  BatchOption (MkBatchOption maxTime maxCount).

(** [opt.Configure(cfg)], dispatched on the dynamic type; the call on a
    [nil] interface value panics. *)
Definition Configure (opt : Option) (c : Configuration)
    : option Configuration :=
  match opt with
  | NilOption => None
  | RandOption o => Some (randOption_Configure o c)
  | BatchOption o => Some (batchOption_Configure o c)
  | ForeignOption configure => Some (configure c)
  end.

(** [for _, opt := range opts { opt.Configure(cfg) }]. *)
Fixpoint configure_all (opts : list Option) (cfg : Configuration)
    : option Configuration :=
  match opts with
  | [] => Some cfg
  | opt :: opts' =>
    match Configure opt cfg with
    | None => None
    | Some cfg' => configure_all opts' cfg'
    end
  end.

(** [newConfiguration]; [new_source] is what [grand.NewSource()] returns
    when it is called.  The result is [(cfg, nil)] or [(nil, err)]. *)
Definition newConfiguration (new_source : Source + error)
    (opts : list Option) : option (Configuration + error) :=
  let cfg := MkConfiguration None 0 0 in
  match configure_all opts cfg with
  | None => None
  | Some cfg =>
    match rand cfg with
    | None =>
      match new_source with
      | inr err => Some (inr err)
      | inl src =>
        Some (inl (MkConfiguration (Some (grand_New src))
                                   (batchTime cfg) (batchCount cfg)))
      end
    | Some _ => Some (inl cfg)
    end
  end.

Record TraceCore : Type := MkTraceCore {
  collector : Collector;
  exporters : list Exporter;
  tc_rand : option Random
}.

(** [NewTraceCore]: [(core, nil)] or [(nil, err)]. *)
Definition NewTraceCore (new_source : Source + error)
    (exporters : list Exporter) (opts : list Option)
    : option (TraceCore + error) :=
  match newConfiguration new_source opts with
  | None => None
  | Some (inr err) => Some (inr (Errorf_w "failed to configure: " err))
  | Some (inl cfg) =>
    let sc := NewSpanCollector exporters (batchTime cfg) (batchCount cfg) in
    Some (inl (MkTraceCore sc exporters (rand cfg)))
  end.

(** [trc.rand.Fill(a[:])] on a zero array of [n] bytes: the array after
    the call and the core with the randomizer in its new state; the call
    on a [nil] randomizer panics. *)
Definition fill_id (n : nat) (trc : TraceCore)
    : option (list byte * TraceCore) :=
  match tc_rand trc with
  | None => None
  | Some g =>
    let '(g', a) := Fill g (replicate n x00) in
    Some (a, MkTraceCore (collector trc) (exporters trc) (Some g'))
  end.

(** [func (trc *TraceCore) CreateSpanId() (sid [8]byte)]. *)
Definition CreateSpanId (trc : TraceCore) : option (list byte * TraceCore) :=
  fill_id 8 trc.

(** [func (trc *TraceCore) CreateTraceId() (tid [16]byte)]. *)
Definition CreateTraceId (trc : TraceCore) : option (list byte * TraceCore) :=
  fill_id 16 trc.

(** The implementations of [Option] that the package provides. *)
Definition package_option (opt : Option) : Prop :=
  match opt with
  | RandOption _ | BatchOption _ => True
  | NilOption | ForeignOption _ => False
  end.

(** The thresholds of the last batching option of a list, and the
    randomizer (possibly [nil]) of its last randomizer option. *)
Fixpoint last_batching (opts : list Option) : option (Z * Z) :=
  match opts with
  | [] => None
  | opt :: opts' =>
    match last_batching opts', opt with
    | Some b, _ => Some b
    | None, BatchOption o => Some (bo_batchTime o, bo_batchCount o)
    | None, _ => None
    end
  end.

Fixpoint last_randomizer (opts : list Option) : option (option Random) :=
  match opts with
  | [] => None
  | opt :: opts' =>
    match last_randomizer opts', opt with
    | Some r, _ => Some r
    | None, RandOption o => Some (ro_rand o)
    | None, _ => None
    end
  end.

Definition batching_option (opt : Option) : Prop :=
  match opt with
  | BatchOption _ => True
  | _ => False
  end.

End Core.

Arguments Configuration : clear implicits.
Arguments randOption : clear implicits.
Arguments Option : clear implicits.
Arguments TraceCore : clear implicits.

(** A randomizer, an entropy source and a collector to try the
    definitions on: the randomizer is a counter that fills a buffer with
    its low byte, the collector records what it is built from. *)
Definition sample_Fill (g : nat) (buf : list byte) : nat * list byte :=
  (S g, replicate (length buf) (of_Z (Z.of_nat g))).

Definition sample_New (src : unit) : nat := 1%nat.

Definition sample_collector (exps : list nat) (t n : Z) : list nat * Z * Z :=
  (exps, t, n).

(** The value of a hexadecimal digit character. *)
Definition digit_value (c : byte) : Z :=
  if to_Z c <=? to_Z "9" then to_Z c - to_Z "0" else to_Z c - to_Z "a" + 10.

(** ** The effect monad *)

Lemma outcome_bind {A B} (m : M A) (f : A → M B) :
  outcome (m ≫= f) = outcome m ≫= (λ a, outcome (f a)).
Proof.
  destruct m as [l [a|]]; simpl; [|reflexivity].
  unfold mbind, M_bind. destruct (f a); reflexivity.
Qed.

Lemma reads_bind {A B} (m : M A) (f : A → M B) :
  reads (m ≫= f) =
  reads m ++ match outcome m with Some a => reads (f a) | None => [] end.
Proof.
  destruct m as [l [a|]]; simpl.
  - unfold mbind, M_bind. destruct (f a); reflexivity.
  - unfold mbind, M_bind. symmetry. apply app_nil_r.
Qed.

Lemma outcome_bind_Some {A B} (m : M A) (f : A → M B) (a : A) :
  outcome m = Some a → outcome (m ≫= f) = outcome (f a).
Proof. intros H. rewrite outcome_bind, H. reflexivity. Qed.

Lemma outcome_bind_None {A B} (m : M A) (f : A → M B) :
  outcome m = None → outcome (m ≫= f) = None.
Proof. intros H. rewrite outcome_bind, H. reflexivity. Qed.

Lemma outcome_ret {A} (a : A) : outcome (mret a : M A) = Some a.
Proof. reflexivity. Qed.

Lemma reads_ret {A} (a : A) : reads (mret a : M A) = [].
Proof. reflexivity. Qed.

(** ** Bytes, by enumeration *)

Lemma to_Z_range (b : byte) : 0 <= to_Z b < 256.
Proof. destruct b; vm_compute; split; congruence. Qed.

Lemma of_to_Z (b : byte) : of_Z (to_Z b) = b.
Proof. destruct b; reflexivity. Qed.

Lemma to_Z_inj (a b : byte) : to_Z a = to_Z b → a = b.
Proof. intros H. rewrite <- (of_to_Z a), <- (of_to_Z b), H. reflexivity. Qed.

Lemma to_Z_zero (b : byte) : to_Z b = 0 ↔ b = x00.
Proof.
  split; [|intros ->; reflexivity].
  intros H. apply to_Z_inj. exact H.
Qed.

(** The nibble test accepts exactly the canonical alphabet. *)
Lemma hexval_accepts (c : byte) : is_Some (hexval c) ↔ is_lower_hex c.
Proof.
  unfold is_lower_hex.
  destruct c; vm_compute; split;
    solve [ intros [? [=]] | intros _; eexists; reflexivity
          | intros _; (left + right); split; congruence
          | intros [[H1 H2]|[H1 H2]]; exfalso; (apply H1 + apply H2); reflexivity ].
Qed.

(** The same set, phrased as the two subtractions of the source. *)
Lemma hexval_by_subtraction (c : byte) :
  is_Some (hexval c) ↔
  0 <= to_Z (sub8 c "0") <= 9 \/ 10 <= to_Z (sub8 c "W") <= 15.
Proof.
  unfold hexval.
  pose proof (to_Z_range (sub8 c "0")).
  destruct (Z.ltb_spec 9 (to_Z (sub8 c "0"))) as [H9|H9].
  - destruct (Z.ltb_spec 15 (to_Z (sub8 c "W"))) as [H15|H15]; simpl.
    + split; [intros [? [=]] | lia].
    + destruct (Z.ltb_spec (to_Z (sub8 c "W")) 10) as [H10|H10].
      * split; [intros [? [=]] | lia].
      * split; [lia | eauto].
  - split; [lia | eauto].
Qed.

Lemma upper_not_lower (c : byte) : is_upper_hex_letter c → ¬ is_lower_hex c.
Proof.
  unfold is_upper_hex_letter, is_lower_hex.
  change (to_Z "A") with 65. change (to_Z "F") with 70.
  change (to_Z "0") with 48. change (to_Z "9") with 57.
  change (to_Z "a") with 97. change (to_Z "f") with 102. lia.
Qed.

(** What an accepted character decodes to. *)
Lemma hexval_inv (c d : byte) :
  hexval c = Some d → c = hexdigit (to_Z d) ∧ 0 <= to_Z d < 16.
Proof.
  intros H.
  destruct c; vm_compute in H; try discriminate H; injection H as <-;
    vm_compute; (split; [reflexivity | split; congruence]).
Qed.

Lemma hexval_hexdigit (n : Z) :
  0 <= n < 16 → hexval (hexdigit n) = Some (of_Z n).
Proof.
  intros Hn.
  assert (n = 0 ∨ n = 1 ∨ n = 2 ∨ n = 3 ∨ n = 4 ∨ n = 5 ∨ n = 6 ∨ n = 7 ∨
          n = 8 ∨ n = 9 ∨ n = 10 ∨ n = 11 ∨ n = 12 ∨ n = 13 ∨ n = 14 ∨
          n = 15) as Hcases by lia.
  repeat (destruct Hcases as [->|Hcases]; [reflexivity|]).
  subst n. reflexivity.
Qed.

(** Encoding a byte and decoding the two characters gives it back. *)
Lemma nibbles_of_byte (b : byte) :
  hexval (hex_hi b) = Some (shr8 b 4) ∧
  hexval (hex_lo b) = Some (and8 b x0f) ∧
  add8 (shl8 (shr8 b 4) 4) (and8 b x0f) = b.
Proof. destruct b; vm_compute; auto. Qed.

(** The table of [encoding/hex] holds the lower-case digits. *)
Lemma hextable_hi (v : byte) :
  hextable !! Z.to_nat (to_Z (shr8 v 4)) = Some (hex_hi v).
Proof. destruct v; reflexivity. Qed.

Lemma hextable_lo (v : byte) :
  hextable !! Z.to_nat (to_Z (and8 v x0f)) = Some (hex_lo v).
Proof. destruct v; reflexivity. Qed.

Lemma hex_hi_lower (b : byte) : is_lower_hex (hex_hi b).
Proof.
  apply hexval_accepts. destruct (nibbles_of_byte b) as (-> & _). eauto.
Qed.

Lemma hex_lo_lower (b : byte) : is_lower_hex (hex_lo b).
Proof.
  apply hexval_accepts. destruct (nibbles_of_byte b) as (_ & -> & _). eauto.
Qed.

(** Decoding two accepted characters and encoding the byte gives the
    characters back. *)
Lemma byte_of_nibbles (c1 c2 d1 d2 : byte) :
  hexval c1 = Some d1 → hexval c2 = Some d2 →
  hex_hi (add8 (shl8 d1 4) d2) = c1 ∧ hex_lo (add8 (shl8 d1 4) d2) = c2.
Proof.
  intros H1 H2.
  destruct c1; vm_compute in H1; try discriminate H1;
    injection H1 as <-;
    (destruct c2; vm_compute in H2; try discriminate H2;
     injection H2 as <-; split; reflexivity).
Qed.

(** ** Hex strings and checksums *)

Lemma length_hexstr (bs : list byte) :
  length (hexstr bs) = (2 * length bs)%nat.
Proof. induction bs as [|b bs IH]; simpl; [reflexivity | rewrite IH; lia]. Qed.

Lemma hexstr_app (a b : list byte) : hexstr (a ++ b) = hexstr a ++ hexstr b.
Proof. induction a as [|x a IH]; simpl; [reflexivity | rewrite IH; reflexivity]. Qed.

Lemma hex_pair_inj (a b : byte) :
  hex_hi a = hex_hi b → hex_lo a = hex_lo b → a = b.
Proof.
  intros Hhi Hlo.
  destruct (nibbles_of_byte a) as (Ha1 & Ha2 & Ha).
  destruct (nibbles_of_byte b) as (Hb1 & Hb2 & Hb).
  rewrite Hhi, Hb1 in Ha1. rewrite Hlo, Hb2 in Ha2.
  injection Ha1 as E1. injection Ha2 as E2.
  rewrite <- Ha, <- Hb, E1, E2. reflexivity.
Qed.

Lemma hexstr_inj (a b : list byte) : hexstr a = hexstr b → a = b.
Proof.
  revert b. induction a as [|x a IH]; intros [|y b]; simpl; try discriminate.
  - reflexivity.
  - intros [= Hhi Hlo Hrest]. f_equal; [apply hex_pair_inj | apply IH]; assumption.
Qed.

Lemma hexstr_lower (bs : list byte) : Forall is_lower_hex (hexstr bs).
Proof.
  induction bs as [|b bs IH]; simpl; [constructor|].
  constructor; [apply hex_hi_lower|].
  constructor; [apply hex_lo_lower | exact IH].
Qed.

Lemma checksum_range (bs : list byte) :
  0 <= checksum bs <= 255 * Z.of_nat (length bs).
Proof.
  induction bs as [|b bs IH]; simpl; [lia|].
  pose proof (to_Z_range b). lia.
Qed.

(** Bytes are unsigned, so the sum vanishes only when every byte does. *)
Lemma checksum_zero (bs : list byte) : checksum bs = 0 ↔ all_zero bs.
Proof.
  unfold all_zero. induction bs as [|b bs IH]; simpl.
  - split; [constructor | reflexivity].
  - pose proof (to_Z_range b). pose proof (checksum_range bs).
    rewrite Forall_cons, <- IH, <- to_Z_zero. lia.
Qed.

Lemma all_zero_replicate (n : nat) : all_zero (replicate n x00).
Proof. apply Forall_replicate. reflexivity. Qed.

Lemma wrap_int_small (z : Z) : - 2 ^ 63 <= z < 2 ^ 63 → wrap_int z = z.
Proof.
  intros Hz. unfold wrap_int.
  rewrite Z.mod_small by lia. lia.
Qed.

(** ** Run-time operations that succeed *)

Lemma shiftl_1 (i : nat) : Nat.shiftl i 1 = (2 * i)%nat.
Proof. simpl. unfold Nat.double. lia. Qed.

Lemma outcome_index (s : list byte) (i : nat) : outcome (index s i) = s !! i.
Proof. reflexivity. Qed.

Lemma reads_index (s : list byte) (i : nat) : reads (index s i) = [i].
Proof. reflexivity. Qed.

Lemma outcome_store (a : list byte) (i : nat) (x : byte) :
  (i < length a)%nat → outcome (store a i x) = Some (<[i := x]> a).
Proof.
  intros Hi. unfold store.
  destruct (Nat.ltb_spec i (length a)); [reflexivity | lia].
Qed.

Lemma reads_store (a : list byte) (i : nat) (x : byte) : reads (store a i x) = [].
Proof. unfold store. destruct (i <? length a)%nat; reflexivity. Qed.

Lemma outcome_load (a : list byte) (i : nat) : outcome (load a i) = a !! i.
Proof. reflexivity. Qed.

Lemma outcome_slice (s : list byte) (l h : nat) :
  (l <= h <= length s)%nat →
  outcome (slice s l h) = Some (take (h - l) (drop l s)).
Proof.
  intros [H1 H2]. unfold slice; simpl.
  destruct (Nat.leb_spec l h); [|lia].
  destruct (Nat.leb_spec h (length s)); [reflexivity | lia].
Qed.

Lemma reads_slice (s : list byte) (l h : nat) :
  reads (slice s l h) = seq l (h - l).
Proof. reflexivity. Qed.

(** ** The id loops *)

Lemma filled_nil (arr : list byte) (i : nat) : filled arr i [] = arr.
Proof. unfold filled; simpl. rewrite Nat.add_0_r. apply take_drop. Qed.

Lemma filled_cons (arr : list byte) (i : nat) (b : byte) (ts : list byte) :
  (i < length arr)%nat →
  filled (<[i := b]> arr) (S i) ts = filled arr i (b :: ts).
Proof.
  intros Hi. unfold filled; simpl.
  rewrite (take_S_r _ i b) by (apply list_lookup_insert_eq; exact Hi).
  rewrite take_insert_ge by lia.
  rewrite drop_insert_lt by lia.
  rewrite <- app_assoc; simpl.
  replace (i + S (length ts))%nat with (S (i + length ts)) by lia.
  reflexivity.
Qed.

Lemma filled_zeros (n : nat) (ts : list byte) :
  filled (zeros n) 0 ts = ts ++ zeros (n - length ts).
Proof. unfold filled, zeros. simpl. rewrite drop_replicate. reflexivity. Qed.

Lemma elem_reads_bind {A B} (m : M A) (f : A → M B) (j : nat) :
  j ∈ reads (m ≫= f) →
  j ∈ reads m ∨ ∃ a, outcome m = Some a ∧ j ∈ reads (f a).
Proof.
  rewrite reads_bind, elem_of_app.
  intros [H|H]; [left; exact H|].
  destruct (outcome m) as [a|]; [right; eauto | inversion H].
Qed.

Section IdLoop.

Context (h : list byte) (off : nat) (msg : string).

Lemma id_loop_S (cnt i : nat) (arr : list byte) (val : Z) :
  id_loop h off msg (S cnt) i arr val =
  c ← index h (off + Nat.shiftl i 1);
  match hexval c with
  | None => mret (LoopReturn arr msg)
  | Some d1 =>
    c ← index h (S off + Nat.shiftl i 1);
    match hexval c with
    | None => mret (LoopReturn arr msg)
    | Some d2 =>
      arr ← store arr i (add8 (shl8 d1 4) d2);
      b ← load arr i;
      id_loop h off msg cnt (S i) arr (int_add val (to_Z b))
    end
  end.
Proof. reflexivity. Qed.

(** What one of the loops does on a header long enough for it: it
    decodes [ts], the bytes of the leading well-formed character pairs,
    into the array; it completes when all [cnt] pairs are well formed and
    returns early at the first character the nibble test rejects. *)
Lemma id_loop_spec (cnt : nat) :
  ∀ (i : nat) (arr : list byte) (val : Z),
  (off + 2 * (i + cnt) <= length h)%nat →
  (i + cnt <= length arr)%nat →
  0 <= val → val + 255 * Z.of_nat cnt < 2 ^ 63 →
  ∃ ts : list byte,
    take (2 * length ts) (drop (off + 2 * i) h) = hexstr ts ∧
    ((length ts = cnt ∧
      outcome (id_loop h off msg cnt i arr val) =
        Some (LoopDone (filled arr i ts) (val + checksum ts))) ∨
     ((length ts < cnt)%nat ∧
      outcome (id_loop h off msg cnt i arr val) =
        Some (LoopReturn (filled arr i ts) msg) ∧
      rejected_at h off (i + length ts))).
Proof.
  induction cnt as [|cnt IH]; intros i arr val Hh Ha Hv0 Hv.
  - exists []. split; [reflexivity|]. left. split; [reflexivity|].
    simpl. rewrite filled_nil, Z.add_0_r. reflexivity.
  - rewrite id_loop_S, shiftl_1.
    destruct (lookup_lt_is_Some_2 h (off + 2 * i)) as [c1 Hc1]; [lia|].
    destruct (lookup_lt_is_Some_2 h (S off + 2 * i)) as [c2 Hc2]; [lia|].
    rewrite (outcome_bind_Some _ _ c1) by exact Hc1.
    destruct (hexval c1) as [d1|] eqn:Hd1; cycle 1.
    { exists []. split; [reflexivity|]. right. split; [simpl; lia|].
      rewrite filled_nil. split; [reflexivity|].
      exists (off + 2 * i)%nat, c1. split; [simpl length; lia | auto]. }
    rewrite (outcome_bind_Some _ _ c2) by exact Hc2.
    destruct (hexval c2) as [d2|] eqn:Hd2; cycle 1.
    { exists []. split; [reflexivity|]. right. split; [simpl; lia|].
      rewrite filled_nil. split; [reflexivity|].
      exists (S off + 2 * i)%nat, c2. split; [simpl length; lia | auto]. }
    set (b := add8 (shl8 d1 4) d2).
    rewrite (outcome_bind_Some _ _ (<[i := b]> arr))
      by (apply outcome_store; lia).
    rewrite (outcome_bind_Some _ _ b)
      by (rewrite outcome_load; apply list_lookup_insert_eq; lia).
    pose proof (to_Z_range b) as Hb.
    unfold int_add. rewrite wrap_int_small by lia.
    destruct (IH (S i) (<[i := b]> arr) (val + to_Z b)) as (ts & Hts & Hres);
      [lia | rewrite length_insert; lia | lia | lia |].
    destruct (byte_of_nibbles c1 c2 d1 d2 Hd1 Hd2) as [Hhi Hlo]. fold b in Hhi, Hlo.
    exists (b :: ts). split.
    { simpl length. replace (2 * S (length ts))%nat with (S (S (2 * length ts))) by lia.
      rewrite (drop_S h c1 (off + 2 * i)) by exact Hc1.
      rewrite (drop_S h c2 (S (off + 2 * i))) by exact Hc2.
      simpl. rewrite Hhi, Hlo. do 2 f_equal.
      rewrite <- Hts. do 2 f_equal. lia. }
    rewrite filled_cons in Hres by lia.
    destruct Hres as [[Hlen Hout]|(Hlen & Hout & j & c & Hj & Hc & Hbad)].
    + left. split; [simpl; lia|]. rewrite Hout. simpl. do 2 f_equal. lia.
    + right. split; [simpl; lia|]. split; [exact Hout|].
      exists j, c. split; [simpl; lia | auto].
Qed.

(** The loop reads only the characters of its own field. *)
Lemma id_loop_reads (cnt : nat) :
  ∀ (i : nat) (arr : list byte) (val : Z) (j : nat),
  j ∈ reads (id_loop h off msg cnt i arr val) →
  (off + 2 * i <= j < off + 2 * (i + cnt))%nat.
Proof.
  induction cnt as [|cnt IH]; intros i arr val j Hj.
  - inversion Hj.
  - rewrite id_loop_S, shiftl_1 in Hj.
    apply elem_reads_bind in Hj as [Hj|(c1 & _ & Hj)].
    { rewrite reads_index in Hj. apply list_elem_of_singleton in Hj. lia. }
    destruct (hexval c1) as [d1|]; [|inversion Hj].
    apply elem_reads_bind in Hj as [Hj|(c2 & _ & Hj)].
    { rewrite reads_index in Hj. apply list_elem_of_singleton in Hj. lia. }
    destruct (hexval c2) as [d2|]; [|inversion Hj].
    apply elem_reads_bind in Hj as [Hj|(arr' & _ & Hj)].
    { rewrite reads_store in Hj. inversion Hj. }
    apply elem_reads_bind in Hj as [Hj|(b & _ & Hj)].
    { inversion Hj. }
    apply IH in Hj. lia.
Qed.

End IdLoop.

(** ** DecodeTraceparent, return by return *)

Lemma dash_missing_outcome (h : list byte) :
  length h = 55%nat →
  outcome (dash_missing h) = Some (bool_decide (¬ dashes_ok h)).
Proof.
  intros Hlen. unfold dash_missing, dashes_ok, dash.
  destruct (lookup_lt_is_Some_2 h 2) as [c2 H2]; [lia|].
  destruct (lookup_lt_is_Some_2 h 35) as [c35 H35]; [lia|].
  destruct (lookup_lt_is_Some_2 h 52) as [c52 H52]; [lia|].
  rewrite H2, H35, H52.
  rewrite (outcome_bind_Some _ _ c2) by exact H2.
  destruct (decide (c2 ≠ "-"%byte)) as [N2|E2].
  { rewrite outcome_ret. f_equal. symmetry. apply bool_decide_eq_true.
    intros ([= E] & _). auto. }
  rewrite (outcome_bind_Some _ _ c35) by exact H35.
  destruct (decide (c35 ≠ "-"%byte)) as [N35|E35].
  { rewrite outcome_ret. f_equal. symmetry. apply bool_decide_eq_true.
    intros (_ & [= E] & _). auto. }
  rewrite (outcome_bind_Some _ _ c52) by exact H52.
  rewrite outcome_ret. f_equal.
  apply dec_stable in E2. apply dec_stable in E35. subst c2 c35.
  apply bool_decide_ext. split.
  - intros N (_ & _ & [= E]). auto.
  - intros N E. apply N. subst c52. auto.
Qed.

Lemma dash_missing_reads (h : list byte) (j : nat) :
  j ∈ reads (dash_missing h) → j = 2%nat ∨ j = 35%nat ∨ j = 52%nat.
Proof.
  unfold dash_missing. intros Hj.
  apply elem_reads_bind in Hj as [Hj|(c & _ & Hj)].
  { apply list_elem_of_singleton in Hj. auto. }
  destruct (decide (c ≠ "-"%byte)); [inversion Hj|].
  apply elem_reads_bind in Hj as [Hj|(c' & _ & Hj)].
  { apply list_elem_of_singleton in Hj. auto. }
  destruct (decide (c' ≠ "-"%byte)); [inversion Hj|].
  apply elem_reads_bind in Hj as [Hj|(c'' & _ & Hj)].
  { apply list_elem_of_singleton in Hj. auto. }
  inversion Hj.
Qed.

Lemma drop_53 (h : list byte) :
  length h = 55%nat → take (55 - 53) (drop 53 h) = drop 53 h.
Proof. intros Hlen. apply take_ge. rewrite length_drop. lia. Qed.

(** Every call returns, without panic, the results that [decodes]
    prescribes. *)
Lemma DecodeTraceparent_decodes (h : list byte) :
  ∃ r : results, outcome (DecodeTraceparent h) = Some r ∧ decodes h r.
Proof.
  unfold DecodeTraceparent.
  destruct (Nat.eqb_spec (length h) 55) as [Hlen|Hlen]; simpl negb; cbv iota;
    [|eexists; split; [reflexivity | apply D_length; exact Hlen]].
  rewrite (outcome_bind_Some _ _ _ (dash_missing_outcome h Hlen)).
  case_bool_decide as Hd;
    [eexists; split; [reflexivity | apply D_format; assumption]|].
  rewrite (outcome_bind_Some _ _ (take 2 h))
    by (rewrite outcome_slice by lia; reflexivity).
  case_bool_decide as Hv; simpl negb; cbv iota;
    [|eexists; split; [reflexivity | apply D_version; assumption]].
  rewrite Hlen.
  rewrite (outcome_bind_Some _ _ (drop 53 h))
    by (rewrite outcome_slice by lia; f_equal; apply drop_53; exact Hlen).
  destruct (flag_case (drop 53 h)) as [f|] eqn:Hfl; cycle 1.
  { unfold flag_case in Hfl. repeat case_bool_decide; try discriminate Hfl.
    eexists; split; [reflexivity | apply D_flag; assumption]. }
  assert (prefix_ok h f) as Hp.
  { unfold prefix_ok, flag_case in *.
    repeat case_bool_decide; try discriminate Hfl; injection Hfl as <-; auto 10. }
  cbv zeta. change (set_flg f (set_ver x00 zero_results))
    with (Results x00 (zeros 16) (zeros 8) f None).
  clear Hfl. cbn [tid pid set_tid set_pid set_err ver flg err].
  (* trace id *)
  destruct (id_loop_spec h 3 "invalid trace id" 16 0 (zeros 16) 0)
    as (ts & Hts & Hres); [lia | reflexivity | lia | lia |].
  rewrite filled_zeros in Hres. change (3 + 2 * 0)%nat with 3%nat in Hts.
  destruct Hres as [[Hlts Hout]|(Hlts & Hout & Hrej)]; cycle 1.
  { rewrite (outcome_bind_Some _ _ _ Hout).
    eexists; split; [reflexivity|].
    apply D_trace_char; assumption. }
  rewrite (outcome_bind_Some _ _ _ Hout).
  rewrite Hlts, Nat.sub_diag, app_nil_r. cbn [zeros replicate].
  rewrite Hlts in Hts. change (2 * 16)%nat with 32%nat in Hts.
  fold (trace_chars h) in Hts. rewrite Z.add_0_l.
  destruct (Z.eqb_spec (checksum ts) 0) as [Hz|Hz].
  { eexists; split; [reflexivity|].
    apply D_trace_zero; [assumption..|]. apply checksum_zero. exact Hz. }
  rewrite checksum_zero in Hz.
  (* parent id *)
  destruct (id_loop_spec h 36 "invalid parent id" 8 0 (zeros 8) 0)
    as (ps & Hps & Hres); [lia | reflexivity | lia | lia |].
  rewrite filled_zeros in Hres. change (36 + 2 * 0)%nat with 36%nat in Hps.
  destruct Hres as [[Hlps Hout']|(Hlps & Hout' & Hrej)]; cycle 1.
  { rewrite (outcome_bind_Some _ _ _ Hout').
    eexists; split; [reflexivity|].
    apply D_parent_char; assumption. }
  rewrite (outcome_bind_Some _ _ _ Hout').
  rewrite Hlps, Nat.sub_diag, app_nil_r. cbn [zeros replicate].
  rewrite Hlps in Hps. change (2 * 8)%nat with 16%nat in Hps.
  fold (parent_chars h) in Hps. rewrite Z.add_0_l.
  destruct (Z.eqb_spec (checksum ps) 0) as [Hz'|Hz'].
  { eexists; split; [reflexivity|].
    apply D_parent_zero; [assumption..|]. apply checksum_zero. exact Hz'. }
  rewrite checksum_zero in Hz'.
  eexists; split; [reflexivity|].
  apply D_ok; assumption.
Qed.

(** No byte of the input is read unless the length is 55, and then only
    at the indices [0..54]. *)
Lemma DecodeTraceparent_reads (h : list byte) (j : nat) :
  j ∈ reads (DecodeTraceparent h) → length h = 55%nat ∧ (j < 55)%nat.
Proof.
  unfold DecodeTraceparent.
  destruct (Nat.eqb_spec (length h) 55) as [Hlen|Hlen]; simpl negb; cbv iota;
    [|intros Hj; inversion Hj].
  rewrite Hlen. intros Hj. split; [reflexivity|].
  apply elem_reads_bind in Hj as [Hj|(bad & _ & Hj)].
  { apply dash_missing_reads in Hj. lia. }
  destruct bad; [inversion Hj|].
  apply elem_reads_bind in Hj as [Hj|(v & _ & Hj)].
  { rewrite reads_slice in Hj. apply elem_of_seq in Hj. lia. }
  destruct (negb (bool_decide (v = bytes "00"))); [inversion Hj|].
  apply elem_reads_bind in Hj as [Hj|(f & _ & Hj)].
  { rewrite reads_slice in Hj. apply elem_of_seq in Hj. lia. }
  destruct (flag_case f) as [b|]; [|inversion Hj]. cbv zeta in Hj.
  apply elem_reads_bind in Hj as [Hj|(e & _ & Hj)].
  { apply id_loop_reads in Hj. lia. }
  destruct e as [a val|a m]; [|inversion Hj].
  destruct (val =? 0); [inversion Hj|].
  apply elem_reads_bind in Hj as [Hj|(e & _ & Hj)].
  { apply id_loop_reads in Hj. lia. }
  destruct e as [a' val'|a' m']; [|inversion Hj].
  destruct (val' =? 0); inversion Hj.
Qed.

(** ** EncodeTraceparent *)

Lemma outcome_subslice (buf : list byte) (l h : nat) :
  (l <= h <= length buf)%nat → outcome (subslice buf l h) = Some (Window l h).
Proof.
  intros [H1 H2]. unfold subslice.
  destruct (Nat.leb_spec l h); [|lia].
  destruct (Nat.leb_spec h (length buf)); [reflexivity | lia].
Qed.

Lemma outcome_wstore (buf : list byte) (w : window) (j : nat) (x : byte) :
  (lo w + j < hi w)%nat → (hi w <= length buf)%nat →
  outcome (wstore buf w j x) = Some (<[(lo w + j)%nat := x]> buf).
Proof.
  intros Hj Hw. unfold wstore.
  destruct (Nat.ltb_spec j (hi w - lo w)); [|lia].
  apply outcome_store. lia.
Qed.

(** [hex.Encode] writes the lower-case hex of [src] into its window and
    leaves the rest of the buffer alone. *)
Lemma hex_Encode_spec (w : window) (src : list byte) :
  ∀ (buf : list byte) (j : nat),
  (lo w + j + 2 * length src <= hi w)%nat → (hi w <= length buf)%nat →
  outcome (hex_Encode buf w src j) =
    Some (filled buf (lo w + j) (hexstr src)).
Proof.
  induction src as [|v src IH]; intros buf j Hj Hw.
  - simpl. rewrite filled_nil. reflexivity.
  - simpl length in Hj. cbn [hex_Encode hexstr].
    rewrite (outcome_bind_Some _ _ (hex_hi v)) by apply hextable_hi.
    rewrite (outcome_bind_Some _ _ (<[(lo w + j)%nat := hex_hi v]> buf))
      by (apply outcome_wstore; lia).
    rewrite (outcome_bind_Some _ _ (hex_lo v)) by apply hextable_lo.
    rewrite (outcome_bind_Some _ _
               (<[(lo w + (j + 1))%nat := hex_lo v]>
                  (<[(lo w + j)%nat := hex_hi v]> buf)))
      by (apply outcome_wstore; [|rewrite length_insert]; lia).
    rewrite IH by (rewrite ?length_insert; lia).
    replace (lo w + (j + 2))%nat with (S (S (lo w + j))) by lia.
    replace (lo w + (j + 1))%nat with (S (lo w + j)) by lia.
    rewrite filled_cons by (rewrite length_insert; lia).
    rewrite filled_cons by lia.
    reflexivity.
Qed.

Lemma length_filled (arr : list byte) (i : nat) (ts : list byte) :
  (i + length ts <= length arr)%nat → length (filled arr i ts) = length arr.
Proof.
  intros H. unfold filled.
  rewrite !length_app, length_take, length_drop. lia.
Qed.

Ltac buf_length :=
  repeat first
    [ rewrite length_insert | rewrite length_replicate
    | rewrite length_hexstr | rewrite length_filled ];
  simpl; lia.

Tactic Notation "explicit_list" ident(l) integer(n) :=
  do n (destruct l as [|? l]; [discriminate|]);
  destruct l; [|discriminate].

(** The header that [EncodeTraceparent] builds is the fixed layout. *)
Lemma EncodeTraceparent_layout (v : byte) (t p : list byte) (f : byte) :
  length t = 16%nat → length p = 8%nat →
  outcome (EncodeTraceparent v t p f) = Some (layout v t p f).
Proof.
  intros Ht Hp. unfold EncodeTraceparent.
  do 3 (erewrite outcome_bind_Some by (apply outcome_store; buf_length)).
  erewrite outcome_bind_Some by (apply outcome_subslice; buf_length).
  erewrite outcome_bind_Some by (apply hex_Encode_spec; buf_length).
  erewrite outcome_bind_Some by (apply outcome_subslice; buf_length).
  erewrite outcome_bind_Some by (apply hex_Encode_spec; buf_length).
  erewrite outcome_bind_Some by (apply outcome_subslice; buf_length).
  erewrite outcome_bind_Some by (apply hex_Encode_spec; buf_length).
  erewrite outcome_bind_Some by (apply outcome_subslice; buf_length).
  erewrite outcome_bind_Some by (apply hex_Encode_spec; buf_length).
  rewrite outcome_ret. f_equal.
  explicit_list t 16. explicit_list p 8.
  reflexivity.
Qed.

(** ** The layout and its slots *)

Lemma layout_slots (v : byte) (t p : list byte) (f : byte) :
  length t = 16%nat → length p = 8%nat →
  let h := layout v t p f in
  length h = 55%nat ∧ dashes_ok h ∧
  take 2 h = hexstr [v] ∧ trace_chars h = hexstr t ∧
  parent_chars h = hexstr p ∧ drop 53 h = hexstr [f].
Proof.
  intros Ht Hp.
  explicit_list t 16. explicit_list p 8.
  repeat split.
Qed.

Lemma layout_of_slots (h : list byte) (v f : byte) (ts ps : list byte) :
  length h = 55%nat → dashes_ok h →
  take 2 h = hexstr [v] → drop 53 h = hexstr [f] →
  length ts = 16%nat → trace_chars h = hexstr ts →
  length ps = 8%nat → parent_chars h = hexstr ps →
  h = layout v ts ps f.
Proof.
  intros Hlen (H2 & H35 & H52) Hv Hf Hlts Hts Hlps Hps.
  explicit_list h 55. explicit_list ts 16. explicit_list ps 8.
  unfold trace_chars, parent_chars in *.
  cbn [take drop hexstr lookup list_lookup] in *.
  injection H2 as ->. injection H35 as ->. injection H52 as ->.
  injection Hv as -> ->. injection Hf as -> ->.
  injection Hts as -> -> -> -> -> -> -> -> -> -> -> -> -> -> -> ->
                   -> -> -> -> -> -> -> -> -> -> -> -> -> -> -> ->.
  injection Hps as -> -> -> -> -> -> -> -> -> -> -> -> -> -> -> ->.
  reflexivity.
Qed.

Lemma prefix_ok_flag (h : list byte) (f : byte) :
  prefix_ok h f → drop 53 h = hexstr [f] ∧ (f = x00 ∨ f = x01).
Proof.
  intros (_ & _ & _ & [[-> ->]|[-> ->]]); split; auto.
Qed.

Lemma prefix_ok_unique (h : list byte) (f f' : byte) :
  prefix_ok h f → prefix_ok h f' → f = f'.
Proof.
  intros (_ & _ & _ & [[E ->]|[E ->]]) (_ & _ & _ & [[E' ->]|[E' ->]]);
    try reflexivity; rewrite E in E'; discriminate E'.
Qed.

(** The characters of a slot that holds a hex string are all accepted. *)
Lemma slot_lower (h : list byte) (off : nat) (ts : list byte) (j : nat) (c : byte) :
  take (2 * length ts) (drop off h) = hexstr ts →
  (off <= j < off + 2 * length ts)%nat → h !! j = Some c →
  is_lower_hex c.
Proof.
  intros Hts Hj Hc.
  pose proof (hexstr_lower ts) as Hall. rewrite <- Hts in Hall.
  rewrite Forall_lookup in Hall. apply (Hall (j - off)%nat).
  rewrite lookup_take_lt by lia. rewrite lookup_drop.
  replace (off + (j - off))%nat with j by lia. exact Hc.
Qed.

Lemma slot_not_rejected (h : list byte) (off : nat) (ts : list byte) (k : nat) :
  take (2 * length ts) (drop off h) = hexstr ts →
  (k < length ts)%nat → ¬ rejected_at h off k.
Proof.
  intros Hts Hk (j & c & Hj & Hc & Hbad).
  assert (is_lower_hex c) as Hl by (apply (slot_lower h off ts j); [assumption | lia | assumption]).
  apply hexval_accepts in Hl as [d Hd]. congruence.
Qed.

(** Lower-case hex characters, taken in pairs, are the hex string of
    some bytes. *)
Lemma lower_is_hexstr (n : nat) :
  ∀ cs : list byte, length cs = (2 * n)%nat → Forall is_lower_hex cs →
  ∃ bs : list byte, length bs = n ∧ cs = hexstr bs.
Proof.
  induction n as [|n IH]; intros cs Hlen Hall.
  - destruct cs; [|discriminate]. exists []. auto.
  - destruct cs as [|c1 [|c2 cs]]; try (simpl in Hlen; lia).
    apply Forall_cons in Hall as [H1 Hall].
    apply Forall_cons in Hall as [H2 Hall].
    apply hexval_accepts in H1 as [d1 H1].
    apply hexval_accepts in H2 as [d2 H2].
    destruct (byte_of_nibbles c1 c2 d1 d2 H1 H2) as [<- <-].
    destruct (IH cs) as (bs & Hbs & ->); [simpl in Hlen; lia | assumption|].
    exists (add8 (shl8 d1 4) d2 :: bs). split; [simpl; lia | reflexivity].
Qed.

Lemma length_trace_chars (h : list byte) :
  length h = 55%nat → length (trace_chars h) = 32%nat.
Proof. intros H. unfold trace_chars. rewrite length_take, length_drop. lia. Qed.

Lemma length_parent_chars (h : list byte) :
  length h = 55%nat → length (parent_chars h) = 16%nat.
Proof. intros H. unfold parent_chars. rewrite length_take, length_drop. lia. Qed.

(** The results on a header that passes the first four checks and whose
    id slots hold the hex strings of [ts] and [ps]. *)
Lemma decodes_hex_slots (h : list byte) (f : byte) (ts ps : list byte) (r : results) :
  prefix_ok h f →
  length ts = 16%nat → trace_chars h = hexstr ts →
  length ps = 8%nat → parent_chars h = hexstr ps →
  decodes h r →
  (all_zero ts ∧ r = Results x00 ts (zeros 8) f (Some "invalid trace id"%string)) ∨
  (¬ all_zero ts ∧ all_zero ps ∧
   r = Results x00 ts ps f (Some "invalid parent id"%string)) ∨
  (¬ all_zero ts ∧ ¬ all_zero ps ∧ r = Results x00 ts ps f None).
Proof.
  intros Hp Hlts Hts Hlps Hps Hdec.
  assert (Hp' := Hp). destruct Hp' as (Hlen & Hd & Hv & Hf).
  assert (∀ k, (k < 16)%nat → ¬ rejected_at h 3 k) as Ht.
  { intros k Hl. apply (slot_not_rejected h 3 ts); [|lia].
    rewrite Hlts. exact Hts. }
  assert (∀ k, (k < 8)%nat → ¬ rejected_at h 36 k) as Hq.
  { intros k Hl. apply (slot_not_rejected h 36 ps); [|lia].
    rewrite Hlps. exact Hps. }
  inversion Hdec as
    [ N | ? N | ? ? N | ? ? ? N0 N1
    | f' ts' Hp' Hl' Hts' Hrej | f' ts' Hp' Hl' Hts' Hz
    | f' ts' ps' Hp' Hl' Hts' Hnz Hlp' Hps' Hrej
    | f' ts' ps' Hp' Hl' Hts' Hnz Hlp' Hps' Hz
    | f' ts' ps' Hp' Hl' Hts' Hnz Hlp' Hps' Hnz' ]; subst r;
    try contradiction;
    try (exfalso; destruct Hf as [[E _]|[E _]]; congruence);
    try (exfalso; exact (Ht _ Hl' Hrej));
    try (exfalso; exact (Hq _ Hlp' Hrej));
    rewrite (prefix_ok_unique h f' f Hp' Hp);
    rewrite Hts in Hts'; apply hexstr_inj in Hts'; subst ts';
    try (rewrite Hps in Hps'; apply hexstr_inj in Hps'; subst ps');
    auto.
Qed.

Lemma layout_prefix_ok (t p : list byte) (f : byte) :
  length t = 16%nat → length p = 8%nat → f = x00 ∨ f = x01 →
  prefix_ok (layout x00 t p f) f.
Proof.
  intros Ht Hp Hf.
  destruct (layout_slots x00 t p f Ht Hp) as (Hlen & Hd & Hv & _ & _ & Hfl).
  unfold prefix_ok. split; [exact Hlen|]. split; [exact Hd|].
  split; [exact Hv|].
  rewrite Hfl. destruct Hf as [-> | ->]; [left | right]; split; reflexivity.
Qed.

Lemma not_all_zero_cons (b : byte) (bs : list byte) :
  b ≠ x00 → ¬ all_zero (b :: bs).
Proof. intros Hb H. apply Forall_cons in H as [E _]. exact (Hb E). Qed.

Lemma bind_MkM {A B} (l : list nat) (a : A) (f : A → M B) :
  MkM l (Some a) ≫= f = MkM (l ++ reads (f a)) (outcome (f a)).
Proof. unfold mbind, M_bind. destruct (f a); reflexivity. Qed.

Lemma dash_missing_run (h : list byte) :
  dashes_ok h → dash_missing h = MkM [2; 35; 52]%nat (Some false).
Proof.
  intros (H2 & H35 & H52). unfold dash_missing, index.
  rewrite H2, H35, H52. reflexivity.
Qed.

Lemma slice_run (s : list byte) (l h : nat) :
  (l <= h <= length s)%nat →
  slice s l h = MkM (seq l (h - l)) (Some (take (h - l) (drop l s))).
Proof.
  intros [H1 H2]. unfold slice.
  destruct (Nat.leb_spec l h); [|lia].
  destruct (Nat.leb_spec h (length s)); [reflexivity | lia].
Qed.

Lemma decodes_err (h : list byte) (r : results) :
  decodes h r → err r = None ∨ ∃ e, err r = Some e ∧ e ∈ decode_errors.
Proof.
  unfold decode_errors.
  intros []; cbn [err];
    [right; eexists; split; [reflexivity | repeat constructor] .. | left; reflexivity].
Qed.

(** The results on a header that passes the first four checks. *)
Lemma decodes_prefix_cases (h : list byte) (f : byte) (r : results) :
  prefix_ok h f → decodes h r →
  (∃ ts : list byte,
     (length ts < 16)%nat ∧
     take (2 * length ts) (drop 3 h) = hexstr ts ∧
     rejected_at h 3 (length ts) ∧
     r = Results x00 (ts ++ zeros (16 - length ts)) (zeros 8) f
           (Some "invalid trace id"%string)) ∨
  (∃ ts : list byte,
     length ts = 16%nat ∧ trace_chars h = hexstr ts ∧
     ((all_zero ts ∧
       r = Results x00 ts (zeros 8) f (Some "invalid trace id"%string)) ∨
      (¬ all_zero ts ∧
       ∃ ps : list byte,
         (length ps < 8)%nat ∧
         take (2 * length ps) (drop 36 h) = hexstr ps ∧
         rejected_at h 36 (length ps) ∧
         r = Results x00 ts (ps ++ zeros (8 - length ps)) f
               (Some "invalid parent id"%string)) ∨
      (¬ all_zero ts ∧
       ∃ ps : list byte,
         length ps = 8%nat ∧ parent_chars h = hexstr ps ∧
         ((all_zero ps ∧
           r = Results x00 ts ps f (Some "invalid parent id"%string)) ∨
          (¬ all_zero ps ∧ r = Results x00 ts ps f None))))).
Proof.
  intros Hp Hdec.
  assert (Hp' := Hp). destruct Hp' as (Hlen & Hd & Hv & Hf).
  inversion Hdec as
    [ N | ? N | ? ? N | ? ? ? N0 N1
    | f' ts' Hp' Hl' Hts' Hrej | f' ts' Hp' Hl' Hts' Hz
    | f' ts' ps' Hp' Hl' Hts' Hnz Hlp' Hps' Hrej
    | f' ts' ps' Hp' Hl' Hts' Hnz Hlp' Hps' Hz
    | f' ts' ps' Hp' Hl' Hts' Hnz Hlp' Hps' Hnz' ]; subst r;
    try contradiction;
    try (exfalso; destruct Hf as [[E _]|[E _]]; congruence);
    rewrite (prefix_ok_unique h f' f Hp' Hp).
  - left. exists ts'. auto.
  - right. exists ts'. auto.
  - right. exists ts'. do 2 (split; [assumption|]). right. left.
    split; [assumption|]. exists ps'. auto.
  - right. exists ts'. do 2 (split; [assumption|]). right. right.
    split; [assumption|]. exists ps'. auto.
  - right. exists ts'. do 2 (split; [assumption|]). right. right.
    split; [assumption|]. exists ps'. auto.
Qed.

Lemma lower_hex_alphabet (c : byte) :
  is_lower_hex c ↔ c ∈ bytes "0123456789abcdef".
Proof.
  split.
  - intros [d H]%hexval_accepts.
    destruct c; vm_compute in H; try discriminate H; repeat constructor.
  - intros H. apply hexval_accepts.
    repeat (apply elem_of_cons in H as [->|H]; [eexists; reflexivity|]).
    inversion H.
Qed.

Lemma trace_slot_lower (h : list byte) (ts : list byte) (j : nat) (c : byte) :
  length ts = 16%nat → trace_chars h = hexstr ts →
  (3 <= j <= 34)%nat → h !! j = Some c → is_lower_hex c.
Proof.
  intros Hl Hts Hj Hc. apply (slot_lower h 3 ts j); [|lia | exact Hc].
  rewrite Hl. exact Hts.
Qed.

Lemma parent_slot_lower (h : list byte) (ps : list byte) (j : nat) (c : byte) :
  length ps = 8%nat → parent_chars h = hexstr ps →
  (36 <= j <= 51)%nat → h !! j = Some c → is_lower_hex c.
Proof.
  intros Hl Hps Hj Hc. apply (slot_lower h 36 ps j); [|lia | exact Hc].
  rewrite Hl. exact Hps.
Qed.

(** A rejected character in the trace-id slot. *)
Lemma trace_char_rejected (h : list byte) (f : byte) (j : nat) (c : byte) (r : results) :
  prefix_ok h f → decodes h r →
  (3 <= j <= 34)%nat → h !! j = Some c → hexval c = None →
  err r = Some "invalid trace id"%string.
Proof.
  intros Hp Hdec Hj Hc Hbad.
  destruct (decodes_prefix_cases h f r Hp Hdec)
    as [(ts & _ & _ & _ & ->)|(ts & Hl & Hts & _)]; [reflexivity|].
  pose proof (trace_slot_lower h ts j c Hl Hts Hj Hc) as [d Hd]%hexval_accepts.
  congruence.
Qed.

(** A rejected character in the parent-id slot, once the trace id has
    been decoded and found non-zero. *)
Lemma parent_char_rejected (h : list byte) (f : byte) (ts : list byte)
    (j : nat) (c : byte) (r : results) :
  prefix_ok h f → decodes h r →
  length ts = 16%nat → trace_chars h = hexstr ts → ¬ all_zero ts →
  (36 <= j <= 51)%nat → h !! j = Some c → hexval c = None →
  err r = Some "invalid parent id"%string.
Proof.
  intros Hp Hdec Hl Hts Hnz Hj Hc Hbad.
  destruct (decodes_prefix_cases h f r Hp Hdec)
    as [(ts' & Hl' & Hts' & Hrej & _)|(ts' & Hl' & Hts' & Hcases)].
  { exfalso. apply (slot_not_rejected h 3 ts (length ts')); [|lia | exact Hrej].
    rewrite Hl. exact Hts. }
  rewrite Hts in Hts'. apply hexstr_inj in Hts'. subst ts'.
  destruct Hcases as [[Hz _]|[(_ & ps & _ & _ & _ & ->)|(_ & ps & Hlp & Hps & _)]];
    [contradiction | reflexivity |].
  pose proof (parent_slot_lower h ps j c Hlp Hps Hj Hc) as [d Hd]%hexval_accepts.
  congruence.
Qed.

Ltac not_in_list H :=
  repeat (apply elem_of_cons in H as [H|H]; [discriminate H|]); inversion H.

(** A loop over a slot that holds a hex string completes with the bytes
    and their sum. *)
Lemma id_loop_hex (h : list byte) (off : nat) (msg : string) (ts : list byte) :
  (off + 2 * length ts <= length h)%nat →
  (length ts <= 16)%nat →
  take (2 * length ts) (drop off h) = hexstr ts →
  outcome (id_loop h off msg (length ts) 0 (zeros (length ts)) 0) =
    Some (LoopDone ts (checksum ts)).
Proof.
  intros Hh Hl Hts.
  destruct (id_loop_spec h off msg (length ts) 0 (zeros (length ts)) 0)
    as (ts' & Hts' & Hres);
    [lia | unfold zeros; rewrite length_replicate; lia | lia | lia |].
  rewrite Nat.mul_0_r, Nat.add_0_r in Hts'.
  destruct Hres as [[Hl' Hout]|(Hl' & _ & Hrej)].
  - rewrite Hl', Hts in Hts'. apply hexstr_inj in Hts'. subst ts'.
    rewrite Hout, filled_zeros, Nat.sub_diag, app_nil_r, Z.add_0_l. reflexivity.
  - exfalso. exact (slot_not_rejected h off ts (length ts') Hts Hl' Hrej).
Qed.

(** The bytes decoded before the failure are determined by the header. *)
Lemma decoded_before_failure_unique (h : list byte) (off cnt : nat)
    (ts ts' : list byte) :
  decoded_before_failure h off cnt ts → decoded_before_failure h off cnt ts' →
  ts = ts'.
Proof.
  intros [Hts Hend] [Hts' Hend'].
  destruct (Nat.lt_trichotomy (length ts) (length ts')) as [Hlt|[Heq|Hlt]].
  - exfalso. destruct Hend as [[_ Hrej]|[Hl _]].
    + exact (slot_not_rejected h off ts' (length ts) Hts' Hlt Hrej).
    + destruct Hend' as [[Hl' _]|[Hl' _]]; lia.
  - apply hexstr_inj. rewrite <- Hts, <- Hts', Heq. reflexivity.
  - exfalso. destruct Hend' as [[_ Hrej]|[Hl' _]].
    + exact (slot_not_rejected h off ts (length ts') Hts Hlt Hrej).
    + destruct Hend as [[Hl _]|[Hl _]]; lia.
Qed.

(** ** The scenarios of the specification *)

Example encode_example :
  outcome (EncodeTraceparent x00 example_tid example_pid x01) =
    Some example_header.
Proof. reflexivity. Qed.

Example decode_example :
  outcome (DecodeTraceparent example_header) =
    Some (Results x00 example_tid example_pid x01 None).
Proof. reflexivity. Qed.

Example decode_zero_trace_id :
  outcome (DecodeTraceparent
             (bytes "00-00000000000000000000000000000000-0102030405060708-00")) =
    Some (Results x00 (zeros 16) (zeros 8) x00 (Some "invalid trace id"%string)).
Proof. reflexivity. Qed.

Example decode_zero_parent_id :
  outcome (DecodeTraceparent zero_parent_header) =
    Some (Results x00 example_tid (zeros 8) x00 (Some "invalid parent id"%string)).
Proof. reflexivity. Qed.

Example decode_upper_case :
  outcome (DecodeTraceparent
             (bytes "00-0102030405060708090A0b0c0d0e0f10-0102030405060708-01")) =
    Some (Results x00 ([x01; x02; x03; x04; x05; x06; x07; x08; x09] ++ zeros 7)
            (zeros 8) x01 (Some "invalid trace id"%string)).
Proof. reflexivity. Qed.

Example decode_reads_in_order :
  reads (DecodeTraceparent example_header) =
    [2; 35; 52; 0; 1; 53; 54]%nat ++ seq 3 32 ++ seq 36 16.
Proof. reflexivity. Qed.

Example partial_header_decoded :
  ∀ ts : list byte, decoded_before_failure partial_header 3 16 ts → ts = [xab].
Proof.
  intros ts Hd.
  apply (decoded_before_failure_unique partial_header 3 16 ts [xab] Hd).
  split; [reflexivity|]. left. split; [simpl; lia|].
  exists 6%nat, "z"%byte. split; [right; reflexivity|]. split; reflexivity.
Qed.

(** * The properties stated by the specification *)

(** C1 (round trip).  For version [0x00], a 16-byte trace id and an
    8-byte parent id that are not all-zero, and flags [0x00] or [0x01],
    [EncodeTraceparent] returns a header on which [DecodeTraceparent]
    succeeds ([err] is nil) and returns exactly the four inputs. *)
Theorem decode_encode_roundtrip (v : byte) (t p : list byte) (f : byte) :
  v = x00 →
  length t = 16%nat → ¬ all_zero t →
  length p = 8%nat → ¬ all_zero p →
  f = x00 ∨ f = x01 →
  ∃ h : list byte,
    outcome (EncodeTraceparent v t p f) = Some h ∧
    outcome (DecodeTraceparent h) = Some (Results v t p f None).
Proof.
  intros -> Ht Hnt Hp Hnp Hf.
  exists (layout x00 t p f). split; [apply EncodeTraceparent_layout; assumption|].
  destruct (DecodeTraceparent_decodes (layout x00 t p f)) as (r & -> & Hdec).
  destruct (layout_slots x00 t p f Ht Hp) as (_ & _ & _ & Hts & Hps & _).
  destruct (decodes_hex_slots _ f t p r (layout_prefix_ok t p f Ht Hp Hf)
              Ht Hts Hp Hps Hdec)
    as [[Hz _]|[(_ & Hz & _)|(_ & _ & ->)]];
    [contradiction | contradiction | reflexivity].
Qed.

Lemma decode_encode_roundtrip_witness :
  (x00 = x00 ∧ length example_tid = 16%nat ∧ ¬ all_zero example_tid ∧
   length example_pid = 8%nat ∧ ¬ all_zero example_pid ∧
   (x01 = x00 ∨ x01 = x01)) ∧
  ∃ h : list byte,
    outcome (EncodeTraceparent x00 example_tid example_pid x01) = Some h ∧
    outcome (DecodeTraceparent h) =
      Some (Results x00 example_tid example_pid x01 None).
Proof.
  assert (¬ all_zero example_tid) as Ht by (apply not_all_zero_cons; discriminate).
  assert (¬ all_zero example_pid) as Hp by (apply not_all_zero_cons; discriminate).
  split.
  - repeat split; auto.
  - apply (decode_encode_roundtrip x00 example_tid example_pid x01);
      auto.
Defined.

(** C2 (accepted alphabet).  At every trace-id and parent-id position
    the nibble test of the decoder accepts exactly the characters
    ['0'..'9'] and ['a'..'f']: a byte is accepted iff [c - '0'] is in
    [0..9] or [c - 'W'] is in [10..15] in 8-bit unsigned arithmetic, and
    among the 256 byte values these conditions hold for the 16
    lower-case hex characters only (upper-case ['A'..'F'] is rejected).
    A rejected character makes the decoder fail with "invalid trace id"
    when it stands in the trace-id slot, and with "invalid parent id"
    when it stands in the parent-id slot and the decoder gets that far;
    an accepted header holds lower-case hex at all 48 positions. *)
Theorem hex_alphabet_exact :
  (∀ c : byte,
     is_Some (hexval c) ↔
     0 <= to_Z (sub8 c "0") <= 9 \/ 10 <= to_Z (sub8 c "W") <= 15) ∧
  (∀ c : byte, is_Some (hexval c) ↔ is_lower_hex c) ∧
  (∀ c : byte, is_Some (hexval c) ↔ c ∈ bytes "0123456789abcdef") ∧
  (∀ c : byte, is_upper_hex_letter c → hexval c = None) ∧
  (∀ (h : list byte) (f : byte) (j : nat) (c : byte),
     prefix_ok h f →
     (3 <= j <= 34)%nat → h !! j = Some c → hexval c = None →
     ∃ r : results,
       outcome (DecodeTraceparent h) = Some r ∧
       err r = Some "invalid trace id"%string) ∧
  (∀ (h : list byte) (f : byte) (ts : list byte) (j : nat) (c : byte),
     prefix_ok h f →
     length ts = 16%nat → trace_chars h = hexstr ts → ¬ all_zero ts →
     (36 <= j <= 51)%nat → h !! j = Some c → hexval c = None →
     ∃ r : results,
       outcome (DecodeTraceparent h) = Some r ∧
       err r = Some "invalid parent id"%string) ∧
  (∀ (h : list byte) (r : results) (j : nat) (c : byte),
     outcome (DecodeTraceparent h) = Some r → err r = None →
     id_position j → h !! j = Some c → is_lower_hex c).
Proof.
  split; [exact hexval_by_subtraction|].
  split; [exact hexval_accepts|].
  split; [intros c; rewrite hexval_accepts; apply lower_hex_alphabet|].
  split.
  { intros c Hu. destruct (hexval c) as [d|] eqn:Hd; [|reflexivity].
    exfalso. apply (upper_not_lower c Hu). apply hexval_accepts. eauto. }
  split.
  { intros h f j c Hp Hj Hc Hbad.
    destruct (DecodeTraceparent_decodes h) as (r & Hout & Hdec).
    exists r. split; [exact Hout|].
    exact (trace_char_rejected h f j c r Hp Hdec Hj Hc Hbad). }
  split.
  { intros h f ts j c Hp Hl Hts Hnz Hj Hc Hbad.
    destruct (DecodeTraceparent_decodes h) as (r & Hout & Hdec).
    exists r. split; [exact Hout|].
    exact (parent_char_rejected h f ts j c r Hp Hdec Hl Hts Hnz Hj Hc Hbad). }
  intros h r j c Hout Herr Hj Hc.
  destruct (DecodeTraceparent_decodes h) as (r' & Hout' & Hdec).
  rewrite Hout in Hout'. injection Hout' as <-.
  inversion Hdec as
    [ | | | | | | |
    | f ts ps Hp Hlts Hts Hnz Hlps Hps Hnz' ]; subst r; try discriminate Herr.
  destruct Hj as [Hj|Hj].
  - exact (trace_slot_lower h ts j c Hlts Hts Hj Hc).
  - exact (parent_slot_lower h ps j c Hlps Hps Hj Hc).
Qed.

Lemma hex_alphabet_exact_witness :
  (prefix_ok (bytes "00-0102030405060708090A0b0c0d0e0f10-0102030405060708-01") x01 ∧
   (3 <= 22 <= 34)%nat ∧
   bytes "00-0102030405060708090A0b0c0d0e0f10-0102030405060708-01" !! 22%nat
     = Some "A"%byte ∧
   hexval "A" = None) ∧
  ∃ r : results,
    outcome (DecodeTraceparent
               (bytes "00-0102030405060708090A0b0c0d0e0f10-0102030405060708-01"))
      = Some r ∧
    err r = Some "invalid trace id"%string.
Proof.
  assert (prefix_ok (bytes "00-0102030405060708090A0b0c0d0e0f10-0102030405060708-01") x01)
    as Hp by (repeat split; right; split; reflexivity).
  assert (3 <= 22 <= 34)%nat as Hj by lia.
  split; [split; [exact Hp|]; split; [exact Hj|]; split; reflexivity|].
  exact (proj1 (proj2 (proj2 (proj2 (proj2 hex_alphabet_exact))))
           (bytes "00-0102030405060708090A0b0c0d0e0f10-0102030405060708-01")
           x01 22%nat "A"%byte Hp Hj eq_refl eq_refl).
Defined.

(** C3, as the code has it.  When [DecodeTraceparent] returns an error it
    is one of its six errors and nothing but the returned values is
    affected; the version is zero and every result that had not been
    assigned when the failure was detected holds its zero value.  All
    four values are zero for the length, format, version and flag
    errors.  For a trace-id error the parent id is zero, the flags byte
    is the decoded flag, and the trace id holds the bytes decoded before
    the failure followed by zeros.  For a parent-id error the trace id
    and the flags byte are as decoded, and the parent id holds the bytes
    decoded before the failure followed by zeros.  The bytes decoded
    before the failure are those of the well-formed pairs in front of the
    first rejected character (all bytes of the id when the failure is
    the zero test); the header determines them, and so the results. *)
Theorem decode_error_results (h : list byte) (r : results) (e : string) :
  outcome (DecodeTraceparent h) = Some r → err r = Some e →
  e ∈ decode_errors ∧ ver r = x00 ∧
  (e ∈ early_errors → tid r = zeros 16 ∧ pid r = zeros 8 ∧ flg r = x00) ∧
  (e = "invalid trace id"%string →
     prefix_ok h (flg r) ∧ pid r = zeros 8 ∧
     ∃ ts : list byte,
       decoded_before_failure h 3 16 ts ∧
       tid r = ts ++ zeros (16 - length ts) ∧
       ∀ ts' : list byte, decoded_before_failure h 3 16 ts' → ts' = ts) ∧
  (e = "invalid parent id"%string →
     prefix_ok h (flg r) ∧
     length (tid r) = 16%nat ∧ trace_chars h = hexstr (tid r) ∧
     ¬ all_zero (tid r) ∧
     ∃ ps : list byte,
       decoded_before_failure h 36 8 ps ∧
       pid r = ps ++ zeros (8 - length ps) ∧
       ∀ ps' : list byte, decoded_before_failure h 36 8 ps' → ps' = ps).
Proof.
  intros Hout Herr.
  destruct (DecodeTraceparent_decodes h) as (r' & Hout' & Hdec).
  rewrite Hout in Hout'. injection Hout' as <-.
  unfold decode_errors, early_errors.
  assert (∀ (off cnt : nat) (ts : list byte),
            decoded_before_failure h off cnt ts →
            ∀ ts', decoded_before_failure h off cnt ts' → ts' = ts) as Huniq.
  { intros off cnt ts Hd ts' Hd'. symmetry.
    exact (decoded_before_failure_unique h off cnt ts ts' Hd Hd'). }
  destruct Hdec as
    [ N | ? N | ? ? N | ? ? ? N0 N1
    | f ts Hp Hl Hts Hrej | f ts Hp Hl Hts Hz
    | f ts ps Hp Hl Hts Hnz Hlp Hps Hrej
    | f ts ps Hp Hl Hts Hnz Hlp Hps Hz
    | f ts ps Hp Hl Hts Hnz Hlp Hps Hnz' ];
    cbn [err ver tid pid flg] in *; try discriminate Herr;
    injection Herr as <-;
    (split; [repeat constructor|]); (split; [reflexivity|]).
  1-4: split; [auto|]; split; intros [=].
  - split; [intros H; not_in_list H|]. split; [|intros [=]].
    intros _. split; [exact Hp|]. split; [reflexivity|].
    assert (decoded_before_failure h 3 16 ts) as Hd
      by (split; [exact Hts | left; split; assumption]).
    exists ts. split; [exact Hd|]. split; [reflexivity | exact (Huniq _ _ _ Hd)].
  - split; [intros H; not_in_list H|]. split; [|intros [=]].
    intros _. split; [exact Hp|]. split; [reflexivity|].
    assert (decoded_before_failure h 3 16 ts) as Hd
      by (split; [rewrite Hl; exact Hts | right; split; assumption]).
    exists ts. split; [exact Hd|].
    split; [|exact (Huniq _ _ _ Hd)].
    rewrite Hl, Nat.sub_diag, app_nil_r. reflexivity.
  - split; [intros H; not_in_list H|]. split; [intros [=]|].
    intros _. do 4 (split; [assumption|]).
    assert (decoded_before_failure h 36 8 ps) as Hd
      by (split; [exact Hps | left; split; assumption]).
    exists ps. split; [exact Hd|]. split; [reflexivity | exact (Huniq _ _ _ Hd)].
  - split; [intros H; not_in_list H|]. split; [intros [=]|].
    intros _. do 4 (split; [assumption|]).
    assert (decoded_before_failure h 36 8 ps) as Hd
      by (split; [rewrite Hlp; exact Hps | right; split; assumption]).
    exists ps. split; [exact Hd|].
    split; [|exact (Huniq _ _ _ Hd)].
    rewrite Hlp, Nat.sub_diag, app_nil_r. reflexivity.
Qed.

Lemma decode_error_results_witness :
  (outcome (DecodeTraceparent partial_header) = Some partial_results ∧
   err partial_results = Some "invalid trace id"%string) ∧
  "invalid trace id"%string ∈ decode_errors ∧ ver partial_results = x00 ∧
  ("invalid trace id"%string ∈ early_errors →
     tid partial_results = zeros 16 ∧ pid partial_results = zeros 8 ∧
     flg partial_results = x00) ∧
  ("invalid trace id"%string = "invalid trace id"%string →
     prefix_ok partial_header (flg partial_results) ∧
     pid partial_results = zeros 8 ∧
     ∃ ts : list byte,
       decoded_before_failure partial_header 3 16 ts ∧
       tid partial_results = ts ++ zeros (16 - length ts) ∧
       ∀ ts' : list byte,
         decoded_before_failure partial_header 3 16 ts' → ts' = ts) ∧
  ("invalid trace id"%string = "invalid parent id"%string →
     prefix_ok partial_header (flg partial_results) ∧
     length (tid partial_results) = 16%nat ∧
     trace_chars partial_header = hexstr (tid partial_results) ∧
     ¬ all_zero (tid partial_results) ∧
     ∃ ps : list byte,
       decoded_before_failure partial_header 36 8 ps ∧
       pid partial_results = ps ++ zeros (8 - length ps) ∧
       ∀ ps' : list byte,
         decoded_before_failure partial_header 36 8 ps' → ps' = ps).
Proof.
  split; [split; reflexivity|].
  apply (decode_error_results partial_header partial_results); reflexivity.
Defined.

(** C3, as stated, fails: on a header whose trace id starts with the
    well-formed pair "ab" and goes on with the rejected character 'z',
    the decoder returns the "invalid trace id" error together with a
    trace id whose first byte is [0xab] and with the flags byte [0x01];
    the returned values are not all zero. *)
Lemma decode_error_exposes_partial_results :
  outcome (DecodeTraceparent partial_header) = Some partial_results ∧
  err partial_results ≠ None ∧
  ¬ (ver partial_results = x00 ∧ tid partial_results = zeros 16 ∧
     pid partial_results = zeros 8 ∧ flg partial_results = x00).
Proof.
  split; [reflexivity|]. split; [discriminate|].
  intros (_ & Ht & _ & _). discriminate Ht.
Qed.

(** C4, as the code has it.  On a 55-character header that passes the
    dash, version, flag and hex-character checks, with [ts] and [ps] the
    decoded trace id and parent id: decoding fails with "invalid trace
    id" iff [ts] is all-zero, and with "invalid parent id" iff [ts] is
    not all-zero and [ps] is all-zero (the trace id is tested first).
    The sum that each loop of the code accumulates is zero iff every
    decoded byte is zero, so the test on the sum is a test for the
    all-zero id. *)
Theorem zero_id_rejection (h : list byte) (f : byte) :
  prefix_ok h f →
  Forall is_lower_hex (trace_chars h) → Forall is_lower_hex (parent_chars h) →
  ∃ (ts ps : list byte) (r : results),
    length ts = 16%nat ∧ trace_chars h = hexstr ts ∧
    length ps = 8%nat ∧ parent_chars h = hexstr ps ∧
    outcome (DecodeTraceparent h) = Some r ∧
    (err r = Some "invalid trace id"%string ↔ all_zero ts) ∧
    (err r = Some "invalid parent id"%string ↔ ¬ all_zero ts ∧ all_zero ps) ∧
    (∃ val : Z,
       outcome (id_loop h 3 "invalid trace id" 16 0 (zeros 16) 0) =
         Some (LoopDone ts val) ∧ (val = 0 ↔ all_zero ts)) ∧
    (∃ val : Z,
       outcome (id_loop h 36 "invalid parent id" 8 0 (zeros 8) 0) =
         Some (LoopDone ps val) ∧ (val = 0 ↔ all_zero ps)).
Proof.
  intros Hp Ht Hq.
  assert (Hlen : length h = 55%nat) by apply Hp.
  destruct (lower_is_hexstr 16 (trace_chars h) (length_trace_chars h Hlen) Ht)
    as (ts & Hlts & Hts).
  destruct (lower_is_hexstr 8 (parent_chars h) (length_parent_chars h Hlen) Hq)
    as (ps & Hlps & Hps).
  destruct (DecodeTraceparent_decodes h) as (r & Hout & Hdec).
  exists ts, ps, r. do 5 (split; [assumption|]).
  assert (outcome (id_loop h 3 "invalid trace id" 16 0 (zeros 16) 0) =
            Some (LoopDone ts (checksum ts))) as Hloop_t.
  { rewrite <- Hlts. apply id_loop_hex; [lia | lia |]. rewrite Hlts. exact Hts. }
  assert (outcome (id_loop h 36 "invalid parent id" 8 0 (zeros 8) 0) =
            Some (LoopDone ps (checksum ps))) as Hloop_p.
  { rewrite <- Hlps. apply id_loop_hex; [lia | lia |]. rewrite Hlps. exact Hps. }
  destruct (decodes_hex_slots h f ts ps r Hp Hlts Hts Hlps Hps Hdec)
    as [[Hz ->]|[(Hnz & Hz & ->)|(Hnz & Hnz' & ->)]]; cbn [err].
  - split; [tauto|]. split; [split; [intros [=] | tauto]|].
    split; eexists; (split; [eassumption | apply checksum_zero]).
  - split; [split; [intros [=] | tauto]|]. split; [tauto|].
    split; eexists; (split; [eassumption | apply checksum_zero]).
  - split; [split; [intros [=] | tauto]|].
    split; [split; [intros [=] | tauto]|].
    split; eexists; (split; [eassumption | apply checksum_zero]).
Qed.

Lemma zero_id_rejection_witness :
  (prefix_ok zero_parent_header x00 ∧
   Forall is_lower_hex (trace_chars zero_parent_header) ∧
   Forall is_lower_hex (parent_chars zero_parent_header)) ∧
  ∃ (ts ps : list byte) (r : results),
    length ts = 16%nat ∧ trace_chars zero_parent_header = hexstr ts ∧
    length ps = 8%nat ∧ parent_chars zero_parent_header = hexstr ps ∧
    outcome (DecodeTraceparent zero_parent_header) = Some r ∧
    (err r = Some "invalid trace id"%string ↔ all_zero ts) ∧
    (err r = Some "invalid parent id"%string ↔ ¬ all_zero ts ∧ all_zero ps) ∧
    (∃ val : Z,
       outcome (id_loop zero_parent_header 3 "invalid trace id" 16 0 (zeros 16) 0) =
         Some (LoopDone ts val) ∧ (val = 0 ↔ all_zero ts)) ∧
    (∃ val : Z,
       outcome (id_loop zero_parent_header 36 "invalid parent id" 8 0 (zeros 8) 0) =
         Some (LoopDone ps val) ∧ (val = 0 ↔ all_zero ps)).
Proof.
  assert (prefix_ok zero_parent_header x00) as Hp
    by (repeat split; left; split; reflexivity).
  assert (Forall is_lower_hex (trace_chars zero_parent_header)) as Ht
    by exact (hexstr_lower example_tid).
  assert (Forall is_lower_hex (parent_chars zero_parent_header)) as Hq
    by exact (hexstr_lower (zeros 8)).
  split; [auto|].
  exact (zero_id_rejection zero_parent_header x00 Hp Ht Hq).
Defined.

(** C4, as stated, fails: on the header whose two ids are all-zero the
    decoded parent id is all-zero, yet the error is "invalid trace id"
    and not "invalid parent id". *)
Lemma zero_parent_behind_zero_trace :
  prefix_ok zero_ids_header x00 ∧
  trace_chars zero_ids_header = hexstr (zeros 16) ∧
  parent_chars zero_ids_header = hexstr (zeros 8) ∧
  outcome (DecodeTraceparent zero_ids_header) =
    Some (Results x00 (zeros 16) (zeros 8) x00 (Some "invalid trace id"%string)) ∧
  ¬ (err (Results x00 (zeros 16) (zeros 8) x00 (Some "invalid trace id"%string))
       = Some "invalid parent id"%string ↔ all_zero (zeros 8)).
Proof.
  split; [repeat split; left; split; reflexivity|].
  do 3 (split; [reflexivity|]).
  intros [_ H]. specialize (H (all_zero_replicate 8)). discriminate H.
Qed.

(** C5 (encode is total and produces the layout).  For every version
    byte, 16-byte trace id, 8-byte parent id and flags byte, with no
    condition on their values, [EncodeTraceparent] returns (it does not
    panic) a header of exactly 55 bytes with ['-'] at indices 2, 35 and
    52 and, in the four slots, the lower-case hex of each field, two
    characters per byte. *)
Theorem encode_total_layout (v : byte) (t p : list byte) (f : byte) :
  length t = 16%nat → length p = 8%nat →
  ∃ h : list byte,
    outcome (EncodeTraceparent v t p f) = Some h ∧
    length h = 55%nat ∧
    h !! 2%nat = Some dash ∧ h !! 35%nat = Some dash ∧ h !! 52%nat = Some dash ∧
    take 2 h = [hex_hi v; hex_lo v] ∧
    trace_chars h = hexstr t ∧
    parent_chars h = hexstr p ∧
    drop 53 h = [hex_hi f; hex_lo f] ∧
    ∀ (j : nat) (c : byte),
      h !! j = Some c → j ≠ 2%nat → j ≠ 35%nat → j ≠ 52%nat → is_lower_hex c.
Proof.
  intros Ht Hp. exists (layout v t p f).
  split; [apply EncodeTraceparent_layout; assumption|].
  destruct (layout_slots v t p f Ht Hp) as (Hlen & (H2 & H35 & H52) & Hv & Hts & Hps & Hf).
  repeat (split; [assumption|]).
  intros j c Hc N2 N35 N52.
  assert (j < 55)%nat as Hj by (rewrite <- Hlen; apply (lookup_lt_Some _ _ _ Hc)).
  assert ((j < 2) ∨ (3 <= j < 3 + 2 * length t) ∨
          (36 <= j < 36 + 2 * length p) ∨ (53 <= j))%nat
    as [Hr|[Hr|[Hr|Hr]]] by lia.
  - pose proof (hexstr_lower [v]) as Hall. rewrite <- Hv in Hall.
    rewrite Forall_lookup in Hall. apply (Hall j).
    rewrite lookup_take_lt by lia. exact Hc.
  - apply (slot_lower (layout v t p f) 3 t j); [|exact Hr | exact Hc].
    rewrite Ht. exact Hts.
  - apply (slot_lower (layout v t p f) 36 p j); [|exact Hr | exact Hc].
    rewrite Hp. exact Hps.
  - pose proof (hexstr_lower [f]) as Hall. rewrite <- Hf in Hall.
    rewrite Forall_lookup in Hall. apply (Hall (j - 53)%nat).
    rewrite lookup_drop. replace (53 + (j - 53))%nat with j by lia. exact Hc.
Qed.

Lemma encode_total_layout_witness :
  (length (zeros 16) = 16%nat ∧ length (zeros 8) = 8%nat) ∧
  ∃ h : list byte,
    outcome (EncodeTraceparent xff (zeros 16) (zeros 8) xff) = Some h ∧
    length h = 55%nat ∧
    h !! 2%nat = Some dash ∧ h !! 35%nat = Some dash ∧ h !! 52%nat = Some dash ∧
    take 2 h = [hex_hi xff; hex_lo xff] ∧
    trace_chars h = hexstr (zeros 16) ∧
    parent_chars h = hexstr (zeros 8) ∧
    drop 53 h = [hex_hi xff; hex_lo xff] ∧
    ∀ (j : nat) (c : byte),
      h !! j = Some c → j ≠ 2%nat → j ≠ 35%nat → j ≠ 52%nat → is_lower_hex c.
Proof.
  split; [split; reflexivity|].
  apply (encode_total_layout xff (zeros 16) (zeros 8) xff); reflexivity.
Defined.

(** C6 (version and flag checks).  On a 55-character, correctly dashed
    input: if the first two characters are not the string "00" the
    result is the "invalid version" error; if they are "00" but the last
    two characters are neither "00" nor "01" the result is the "invalid
    flag" error.  Both tests compare strings, and in both cases the
    decoder has read the dashes and the version (and flag) characters
    only: no trace-id or parent-id character has been examined. *)
Theorem version_flag_rejection (h : list byte) :
  length h = 55%nat → dashes_ok h →
  (take 2 h ≠ bytes "00" →
     DecodeTraceparent h =
       MkM [2; 35; 52; 0; 1]%nat
           (Some (set_err "invalid version" zero_results))) ∧
  (take 2 h = bytes "00" →
   drop 53 h ≠ bytes "00" → drop 53 h ≠ bytes "01" →
     DecodeTraceparent h =
       MkM [2; 35; 52; 0; 1; 53; 54]%nat
           (Some (set_err "invalid flag" zero_results))) ∧
  (take 2 h ≠ bytes "00" ∨
   (drop 53 h ≠ bytes "00" ∧ drop 53 h ≠ bytes "01") →
     ∀ j : nat, j ∈ reads (DecodeTraceparent h) → ¬ id_position j).
Proof.
  intros Hlen Hd.
  assert (take 2 h ≠ bytes "00" →
     DecodeTraceparent h =
       MkM [2; 35; 52; 0; 1]%nat
           (Some (set_err "invalid version" zero_results))) as Hver.
  { intros Hv. unfold DecodeTraceparent.
    rewrite Hlen, (dash_missing_run h Hd). simpl negb; cbv iota.
    rewrite bind_MkM. cbv beta iota.
    rewrite (slice_run h 0 2) by lia. rewrite bind_MkM.
    change (take (2 - 0) (drop 0 h)) with (take 2 h).
    rewrite bool_decide_eq_false_2 by exact Hv. reflexivity. }
  assert (take 2 h = bytes "00" →
   drop 53 h ≠ bytes "00" → drop 53 h ≠ bytes "01" →
     DecodeTraceparent h =
       MkM [2; 35; 52; 0; 1; 53; 54]%nat
           (Some (set_err "invalid flag" zero_results))) as Hflag.
  { intros Hv Hf0 Hf1. unfold DecodeTraceparent.
    rewrite Hlen, (dash_missing_run h Hd). simpl negb; cbv iota.
    rewrite bind_MkM. cbv beta iota.
    rewrite (slice_run h 0 2) by lia. rewrite bind_MkM.
    change (take (2 - 0) (drop 0 h)) with (take 2 h).
    rewrite bool_decide_eq_true_2 by exact Hv. simpl negb; cbv iota.
    rewrite (slice_run h 53 55) by lia. rewrite bind_MkM.
    rewrite (drop_53 h Hlen).
    unfold flag_case.
    rewrite (bool_decide_eq_false_2 _ Hf0), (bool_decide_eq_false_2 _ Hf1).
    reflexivity. }
  split; [exact Hver|]. split; [exact Hflag|].
  intros Hbad j Hj Hpos. unfold id_position in Hpos.
  destruct (decide (take 2 h = bytes "00")) as [Hv|Hv].
  - destruct Hbad as [N|[Hf0 Hf1]]; [contradiction|].
    rewrite (Hflag Hv Hf0 Hf1) in Hj. cbn [reads] in Hj.
    repeat (apply elem_of_cons in Hj as [->|Hj]; [lia|]). inversion Hj.
  - rewrite (Hver Hv) in Hj. cbn [reads] in Hj.
    repeat (apply elem_of_cons in Hj as [->|Hj]; [lia|]). inversion Hj.
Qed.

Lemma version_flag_rejection_witness :
  (length (bytes "01-0102030405060708090a0b0c0d0e0f10-0102030405060708-01") = 55%nat ∧
   dashes_ok (bytes "01-0102030405060708090a0b0c0d0e0f10-0102030405060708-01")) ∧
  DecodeTraceparent (bytes "01-0102030405060708090a0b0c0d0e0f10-0102030405060708-01") =
    MkM [2; 35; 52; 0; 1]%nat (Some (set_err "invalid version" zero_results)).
Proof.
  assert (dashes_ok (bytes "01-0102030405060708090a0b0c0d0e0f10-0102030405060708-01"))
    as Hd by (repeat split).
  split; [split; [reflexivity | exact Hd]|].
  apply (version_flag_rejection
           (bytes "01-0102030405060708090a0b0c0d0e0f10-0102030405060708-01")
           eq_refl Hd).
  discriminate.
Defined.

(** C7 (length check first).  On every input whose length is not 55,
    [DecodeTraceparent] returns the "invalid length" error without
    reading a single byte of the input, whatever the content; a
    54-character string is one such input. *)
Theorem length_rejection (h : list byte) :
  length h ≠ 55%nat →
  DecodeTraceparent h = MkM [] (Some (set_err "invalid length" zero_results)).
Proof.
  intros Hlen. unfold DecodeTraceparent.
  destruct (Nat.eqb_spec (length h) 55) as [E|_]; [contradiction | reflexivity].
Qed.

Lemma length_rejection_witness :
  length (bytes "00-0102030405060708090a0b0c0d0e0f10-0102030405060708-0") ≠ 55%nat ∧
  DecodeTraceparent (bytes "00-0102030405060708090a0b0c0d0e0f10-0102030405060708-0") =
    MkM [] (Some (set_err "invalid length" zero_results)).
Proof.
  split; [discriminate|].
  apply (length_rejection
           (bytes "00-0102030405060708090a0b0c0d0e0f10-0102030405060708-0")).
  discriminate.
Defined.

(** C8 (dashes).  On every 55-character input in which the character at
    index 2, 35 or 52 is not ['-'], [DecodeTraceparent] returns the
    "invalid format" error, whatever the rest of the string holds. *)
Theorem dash_rejection (h : list byte) :
  length h = 55%nat →
  h !! 2%nat ≠ Some dash ∨ h !! 35%nat ≠ Some dash ∨ h !! 52%nat ≠ Some dash →
  outcome (DecodeTraceparent h) =
    Some (set_err "invalid format" zero_results).
Proof.
  intros Hlen Hbad.
  assert (¬ dashes_ok h) as Hd by (unfold dashes_ok; tauto).
  unfold DecodeTraceparent.
  destruct (Nat.eqb_spec (length h) 55) as [_|N]; [|contradiction].
  simpl negb; cbv iota.
  rewrite (outcome_bind_Some _ _ _ (dash_missing_outcome h Hlen)).
  rewrite bool_decide_eq_true_2 by exact Hd. reflexivity.
Qed.

Lemma dash_rejection_witness :
  (length (bytes "00-0102030405060708090a0b0c0d0e0f10+0102030405060708-01") = 55%nat ∧
   (bytes "00-0102030405060708090a0b0c0d0e0f10+0102030405060708-01" !! 2%nat ≠ Some dash ∨
    bytes "00-0102030405060708090a0b0c0d0e0f10+0102030405060708-01" !! 35%nat ≠ Some dash ∨
    bytes "00-0102030405060708090a0b0c0d0e0f10+0102030405060708-01" !! 52%nat ≠ Some dash)) ∧
  outcome (DecodeTraceparent
             (bytes "00-0102030405060708090a0b0c0d0e0f10+0102030405060708-01")) =
    Some (set_err "invalid format" zero_results).
Proof.
  assert (bytes "00-0102030405060708090a0b0c0d0e0f10+0102030405060708-01" !! 35%nat
          ≠ Some dash) as H35 by discriminate.
  split; [split; [reflexivity | right; left; exact H35]|].
  apply (dash_rejection
           (bytes "00-0102030405060708090a0b0c0d0e0f10+0102030405060708-01"));
    [reflexivity | right; left; exact H35].
Defined.

(** C9 (encode inverts decode).  Whenever [DecodeTraceparent] accepts a
    header [h], [EncodeTraceparent] applied to the four values it
    returned gives [h] back, byte for byte. *)
Theorem encode_decode_inverse (h : list byte) (r : results) :
  outcome (DecodeTraceparent h) = Some r → err r = None →
  outcome (EncodeTraceparent (ver r) (tid r) (pid r) (flg r)) = Some h.
Proof.
  intros Hout Herr.
  destruct (DecodeTraceparent_decodes h) as (r' & Hout' & Hdec).
  rewrite Hout in Hout'. injection Hout' as <-.
  inversion Hdec as
    [ | | | | | | |
    | f ts ps Hp Hlts Hts Hnz Hlps Hps Hnz' ]; subst r; try discriminate Herr.
  cbn [ver tid pid flg].
  rewrite EncodeTraceparent_layout by assumption. f_equal. symmetry.
  destruct (prefix_ok_flag h f Hp) as [Hfl _].
  destruct Hp as (Hlen & Hd & Hv & _).
  apply layout_of_slots; assumption.
Qed.

Lemma encode_decode_inverse_witness :
  (outcome (DecodeTraceparent example_header) =
     Some (Results x00 example_tid example_pid x01 None) ∧
   err (Results x00 example_tid example_pid x01 None) = None) ∧
  outcome (EncodeTraceparent x00 example_tid example_pid x01) =
    Some example_header.
Proof.
  split; [split; reflexivity|].
  apply (encode_decode_inverse example_header
           (Results x00 example_tid example_pid x01 None)); reflexivity.
Defined.

(** C10 (total and safe).  On every input, of any length and content,
    [DecodeTraceparent] returns — it never panics — either results with
    a nil error or one of its six errors; and every index at which it
    reads the input is within bounds: reads happen only when the length
    is 55, at the indices 2, 35, 52 and in [0..1], [3..34], [36..51],
    [53..54]. *)
Theorem decode_total_safe (h : list byte) :
  (∃ r : results,
     outcome (DecodeTraceparent h) = Some r ∧
     (err r = None ∨ ∃ e, err r = Some e ∧ e ∈ decode_errors)) ∧
  (∀ j : nat, j ∈ reads (DecodeTraceparent h) →
     (j < length h)%nat ∧ length h = 55%nat ∧
     (j = 2 ∨ j = 35 ∨ j = 52 ∨ j <= 1 ∨ 3 <= j <= 34 ∨ 36 <= j <= 51 ∨
      53 <= j <= 54)%nat).
Proof.
  split.
  - destruct (DecodeTraceparent_decodes h) as (r & Hout & Hdec).
    exists r. split; [exact Hout | exact (decodes_err h r Hdec)].
  - intros j Hj. apply DecodeTraceparent_reads in Hj as [Hlen Hj]. lia.
Qed.

(** * Further properties of the code *)

(** ** Encoding and decoding together *)

(** An accepted header is the layout of the values returned for it. *)
Lemma accepted_is_layout (h : list byte) (r : results) :
  outcome (DecodeTraceparent h) = Some r → err r = None →
  ∃ (f : byte) (ts ps : list byte),
    r = Results x00 ts ps f None ∧ prefix_ok h f ∧
    length ts = 16%nat ∧ trace_chars h = hexstr ts ∧ ¬ all_zero ts ∧
    length ps = 8%nat ∧ parent_chars h = hexstr ps ∧ ¬ all_zero ps ∧
    h = layout x00 ts ps f.
Proof.
  intros Hout Herr.
  destruct (DecodeTraceparent_decodes h) as (r' & Hout' & Hdec).
  rewrite Hout in Hout'. injection Hout' as <-.
  inversion Hdec as
    [ | | | | | | |
    | f ts ps Hp Hlts Hts Hnz Hlps Hps Hnz' ]; subst r; try discriminate Herr.
  exists f, ts, ps. do 8 (split; [first [reflexivity | assumption]|]).
  destruct (prefix_ok_flag h f Hp) as [Hfl _].
  destruct Hp as (Hlen & Hd & Hv & _).
  apply layout_of_slots; assumption.
Qed.

(** What the decoder returns on the layout of arbitrary field values
    with version [00] and a flag it knows. *)
Lemma decode_layout (t p : list byte) (f : byte) (r : results) :
  length t = 16%nat → length p = 8%nat → f = x00 ∨ f = x01 →
  outcome (DecodeTraceparent (layout x00 t p f)) = Some r →
  (all_zero t ∧ r = Results x00 t (zeros 8) f (Some "invalid trace id"%string)) ∨
  (¬ all_zero t ∧ all_zero p ∧
   r = Results x00 t p f (Some "invalid parent id"%string)) ∨
  (¬ all_zero t ∧ ¬ all_zero p ∧ r = Results x00 t p f None).
Proof.
  intros Ht Hp Hf Hout.
  destruct (DecodeTraceparent_decodes (layout x00 t p f)) as (r' & Hout' & Hdec).
  rewrite Hout in Hout'. injection Hout' as <-.
  destruct (layout_slots x00 t p f Ht Hp) as (_ & _ & _ & Hts & Hps & _).
  exact (decodes_hex_slots _ f t p r (layout_prefix_ok t p f Ht Hp Hf)
           Ht Hts Hp Hps Hdec).
Qed.

(** X1.  [EncodeTraceparent] is injective: two calls (on ids of 16 and
    8 bytes) that return the same header were given the same version,
    trace id, parent id and flags. *)
Theorem encode_injective (v v' : byte) (t t' p p' : list byte) (f f' : byte) :
  length t = 16%nat → length p = 8%nat →
  length t' = 16%nat → length p' = 8%nat →
  outcome (EncodeTraceparent v t p f) = outcome (EncodeTraceparent v' t' p' f') →
  v = v' ∧ t = t' ∧ p = p' ∧ f = f'.
Proof.
  intros Ht Hp Ht' Hp' E.
  rewrite !EncodeTraceparent_layout in E by assumption.
  assert (layout v t p f = layout v' t' p' f') as E' by congruence.
  clear E. rename E' into E.
  destruct (layout_slots v t p f Ht Hp) as (_ & _ & Hv & Hts & Hps & Hf).
  destruct (layout_slots v' t' p' f' Ht' Hp') as (_ & _ & Hv' & Hts' & Hps' & Hf').
  cbv zeta in *. rewrite E in Hv, Hts, Hps, Hf.
  rewrite Hv in Hv'. rewrite Hts in Hts'. rewrite Hps in Hps'. rewrite Hf in Hf'.
  apply hexstr_inj in Hv', Hts', Hps', Hf'.
  injection Hv' as ->. injection Hf' as ->. subst. auto.
Qed.

Lemma encode_injective_witness :
  (length example_tid = 16%nat ∧ length example_pid = 8%nat ∧
   length example_tid = 16%nat ∧ length example_pid = 8%nat ∧
   outcome (EncodeTraceparent x00 example_tid example_pid x01) =
   outcome (EncodeTraceparent x00 example_tid example_pid x01)) ∧
  x00 = x00 ∧ example_tid = example_tid ∧ example_pid = example_pid ∧ x01 = x01.
Proof.
  split; [repeat split|].
  apply (encode_injective x00 x00 example_tid example_tid
           example_pid example_pid x01 x01); reflexivity.
Defined.

Lemma decodes_bad_version (h : list byte) (r : results) :
  length h = 55%nat → dashes_ok h → take 2 h ≠ bytes "00" →
  decodes h r → r = set_err "invalid version" zero_results.
Proof.
  intros Hlen Hd Hv Hdec.
  destruct Hdec as
    [ N | ? N | ? ? N | ? ? E N0 N1
    | f ts Hp | f ts Hp | f ts ps Hp | f ts ps Hp | f ts ps Hp ];
    try reflexivity; try contradiction;
    exfalso; apply Hv; apply Hp.
Qed.

Lemma decodes_bad_flag (h : list byte) (r : results) :
  length h = 55%nat → dashes_ok h → take 2 h = bytes "00" →
  drop 53 h ≠ bytes "00" → drop 53 h ≠ bytes "01" →
  decodes h r → r = set_err "invalid flag" zero_results.
Proof.
  intros Hlen Hd Hv Hf0 Hf1 Hdec.
  destruct Hdec as
    [ N | ? N | ? ? N | ? ? E N0 N1
    | f ts Hp | f ts Hp | f ts ps Hp | f ts ps Hp | f ts ps Hp ];
    try reflexivity; try contradiction;
    exfalso; destruct Hp as (_ & _ & _ & [[E _]|[E _]]); contradiction.
Qed.

(** X2.  Encoding does not validate the version, decoding does: the
    header that [EncodeTraceparent] builds for a version other than
    [0x00] is rejected by [DecodeTraceparent] with "invalid version" and
    all-zero results, whatever the ids and the flags are. *)
Theorem decode_encode_bad_version (v : byte) (t p : list byte) (f : byte) :
  v ≠ x00 → length t = 16%nat → length p = 8%nat →
  ∃ h : list byte,
    outcome (EncodeTraceparent v t p f) = Some h ∧
    outcome (DecodeTraceparent h) =
      Some (set_err "invalid version" zero_results).
Proof.
  intros Hv Ht Hp. exists (layout v t p f).
  split; [apply EncodeTraceparent_layout; assumption|].
  destruct (layout_slots v t p f Ht Hp) as (Hlen & Hd & Hver & _).
  destruct (DecodeTraceparent_decodes (layout v t p f)) as (r & -> & Hdec).
  f_equal. apply (decodes_bad_version _ r Hlen Hd); [|exact Hdec].
  cbv zeta in Hver. rewrite Hver. intros E.
  change (bytes "00") with (hexstr [x00]) in E.
  apply hexstr_inj in E. injection E as E. exact (Hv E).
Qed.

Lemma decode_encode_bad_version_witness :
  (x01 ≠ x00 ∧ length example_tid = 16%nat ∧ length example_pid = 8%nat) ∧
  ∃ h : list byte,
    outcome (EncodeTraceparent x01 example_tid example_pid x01) = Some h ∧
    outcome (DecodeTraceparent h) =
      Some (set_err "invalid version" zero_results).
Proof.
  assert (x01 ≠ x00) as Hv by discriminate.
  split; [auto|].
  exact (decode_encode_bad_version x01 example_tid example_pid x01
           Hv eq_refl eq_refl).
Defined.

(** X3.  Likewise for the flags: for version [0x00] and a flags byte
    other than [0x00] and [0x01], the header that [EncodeTraceparent]
    builds is rejected with "invalid flag" and all-zero results (the
    version result is zero as well), whatever the ids are. *)
Theorem decode_encode_bad_flag (t p : list byte) (f : byte) :
  f ≠ x00 → f ≠ x01 → length t = 16%nat → length p = 8%nat →
  ∃ h : list byte,
    outcome (EncodeTraceparent x00 t p f) = Some h ∧
    outcome (DecodeTraceparent h) = Some (set_err "invalid flag" zero_results).
Proof.
  intros Hf0 Hf1 Ht Hp. exists (layout x00 t p f).
  split; [apply EncodeTraceparent_layout; assumption|].
  destruct (layout_slots x00 t p f Ht Hp) as (Hlen & Hd & Hver & _ & _ & Hfl).
  destruct (DecodeTraceparent_decodes (layout x00 t p f)) as (r & -> & Hdec).
  cbv zeta in Hfl.
  f_equal. apply (decodes_bad_flag _ r Hlen Hd Hver); [| |exact Hdec].
  - rewrite Hfl. intros E. change (bytes "00") with (hexstr [x00]) in E.
    apply hexstr_inj in E. injection E as E. exact (Hf0 E).
  - rewrite Hfl. intros E. change (bytes "01") with (hexstr [x01]) in E.
    apply hexstr_inj in E. injection E as E. exact (Hf1 E).
Qed.

Lemma decode_encode_bad_flag_witness :
  (x02 ≠ x00 ∧ x02 ≠ x01 ∧ length example_tid = 16%nat ∧
   length example_pid = 8%nat) ∧
  ∃ h : list byte,
    outcome (EncodeTraceparent x00 example_tid example_pid x02) = Some h ∧
    outcome (DecodeTraceparent h) = Some (set_err "invalid flag" zero_results).
Proof.
  assert (x02 ≠ x00) as H0 by discriminate.
  assert (x02 ≠ x01) as H1 by discriminate.
  split; [auto|].
  exact (decode_encode_bad_flag example_tid example_pid x02 H0 H1 eq_refl eq_refl).
Defined.

(** X4.  An all-zero id survives encoding but not decoding.  For version
    [0x00] and flags [0x00] or [0x01]: if the trace id is all-zero the
    encoded header is rejected with "invalid trace id", whatever the
    parent id is; if the trace id is not all-zero and the parent id is,
    it is rejected with "invalid parent id", and the decoded trace id and
    flags are returned beside the error. *)
Theorem decode_encode_zero_id (t p : list byte) (f : byte) :
  length t = 16%nat → length p = 8%nat → f = x00 ∨ f = x01 →
  all_zero t ∨ all_zero p →
  ∃ h : list byte,
    outcome (EncodeTraceparent x00 t p f) = Some h ∧
    (all_zero t →
       outcome (DecodeTraceparent h) =
         Some (Results x00 (zeros 16) (zeros 8) f (Some "invalid trace id"%string))) ∧
    (¬ all_zero t →
       outcome (DecodeTraceparent h) =
         Some (Results x00 t (zeros 8) f (Some "invalid parent id"%string))).
Proof.
  intros Ht Hp Hf Hz. exists (layout x00 t p f).
  split; [apply EncodeTraceparent_layout; assumption|].
  destruct (DecodeTraceparent_decodes (layout x00 t p f)) as (r & Hout & _).
  pose proof (decode_layout t p f r Ht Hp Hf Hout) as Hcases.
  assert (∀ (n : nat) (bs : list byte),
            length bs = n → all_zero bs → bs = zeros n) as Hzeros.
  { intros n bs <- Hbs. unfold zeros. symmetry.
    apply replicate_as_Forall_2; [reflexivity|].
    apply (Forall_impl _ _ _ Hbs). intros b ->. reflexivity. }
  split.
  - intros Hzt. rewrite Hout. f_equal.
    destruct Hcases as [[_ ->]|[(N & _)|(N & _)]]; try contradiction.
    rewrite (Hzeros 16%nat t Ht Hzt). reflexivity.
  - intros Hnz. rewrite Hout. f_equal.
    destruct Hz as [Hz|Hz]; [contradiction|].
    destruct Hcases as [[N _]|[(_ & _ & ->)|(_ & N & _)]]; try contradiction.
    rewrite (Hzeros 8%nat p Hp Hz). reflexivity.
Qed.

Lemma decode_encode_zero_id_witness :
  (length example_tid = 16%nat ∧ length (zeros 8) = 8%nat ∧
   (x01 = x00 ∨ x01 = x01) ∧ (all_zero example_tid ∨ all_zero (zeros 8))) ∧
  ∃ h : list byte,
    outcome (EncodeTraceparent x00 example_tid (zeros 8) x01) = Some h ∧
    (all_zero example_tid →
       outcome (DecodeTraceparent h) =
         Some (Results x00 (zeros 16) (zeros 8) x01
                 (Some "invalid trace id"%string))) ∧
    (¬ all_zero example_tid →
       outcome (DecodeTraceparent h) =
         Some (Results x00 example_tid (zeros 8) x01
                 (Some "invalid parent id"%string))).
Proof.
  assert (all_zero example_tid ∨ all_zero (zeros 8)) as Hz
    by (right; apply all_zero_replicate).
  split; [auto 6|].
  exact (decode_encode_zero_id example_tid (zeros 8) x01 eq_refl eq_refl
           (or_intror eq_refl) Hz).
Defined.

(** X5.  The headers that [DecodeTraceparent] accepts are exactly those
    that [EncodeTraceparent] builds for version [0x00], flags [0x00] or
    [0x01] and ids that are not all-zero, and the values returned for an
    accepted header are the ones it was built from.  In particular a
    successful decode never returns an all-zero id, a version other than
    zero or flags other than 0 and 1. *)
Theorem decode_accepts_exactly_encoded (h : list byte) (r : results) :
  outcome (DecodeTraceparent h) = Some r ∧ err r = None ↔
  ∃ (t p : list byte) (f : byte),
    length t = 16%nat ∧ ¬ all_zero t ∧ length p = 8%nat ∧ ¬ all_zero p ∧
    (f = x00 ∨ f = x01) ∧
    outcome (EncodeTraceparent x00 t p f) = Some h ∧
    r = Results x00 t p f None.
Proof.
  split.
  - intros [Hout Herr].
    destruct (accepted_is_layout h r Hout Herr)
      as (f & ts & ps & -> & Hp & Hlts & _ & Hnz & Hlps & _ & Hnz' & ->).
    exists ts, ps, f. do 4 (split; [assumption|]).
    split; [exact (proj2 (prefix_ok_flag _ f Hp))|].
    split; [apply EncodeTraceparent_layout; assumption | reflexivity].
  - intros (t & p & f & Ht & Hnt & Hp & Hnp & Hf & Henc & ->).
    rewrite EncodeTraceparent_layout in Henc by assumption.
    injection Henc as <-.
    destruct (DecodeTraceparent_decodes (layout x00 t p f)) as (r & Hout & _).
    destruct (decode_layout t p f r Ht Hp Hf Hout)
      as [[Hz _]|[(_ & Hz & _)|(_ & _ & ->)]]; try contradiction.
    split; [exact Hout | reflexivity].
Qed.

Lemma digit_value_hex (b : byte) :
  digit_value (hex_hi b) = to_Z b / 16 ∧ digit_value (hex_lo b) = to_Z b mod 16.
Proof. destruct b; vm_compute; auto. Qed.

Lemma hexstr_lookup (ts : list byte) :
  ∀ (i : nat) (b : byte), ts !! i = Some b →
  hexstr ts !! (2 * i)%nat = Some (hex_hi b) ∧
  hexstr ts !! S (2 * i) = Some (hex_lo b).
Proof.
  induction ts as [|t ts IH]; intros [|i] b Hb; try discriminate Hb.
  - injection Hb as ->. split; reflexivity.
  - replace (2 * S i)%nat with (S (S (2 * i))) by lia. simpl.
    apply IH. exact Hb.
Qed.

(** The two characters of byte [i] of an id slot that holds [hexstr ts],
    and the value of the byte in terms of them. *)
Lemma slot_byte_value (h : list byte) (off : nat) (ts : list byte)
    (i : nat) (b : byte) :
  take (2 * length ts) (drop off h) = hexstr ts → ts !! i = Some b →
  ∃ c1 c2 : byte,
    h !! (off + 2 * i)%nat = Some c1 ∧ h !! (S off + 2 * i)%nat = Some c2 ∧
    to_Z b = 16 * digit_value c1 + digit_value c2.
Proof.
  intros Hts Hb.
  pose proof (lookup_lt_Some _ _ _ Hb) as Hi.
  destruct (hexstr_lookup ts i b Hb) as [H1 H2].
  rewrite <- Hts in H1, H2.
  rewrite lookup_take_lt, lookup_drop in H1 by lia.
  rewrite lookup_take_lt, lookup_drop in H2 by lia.
  exists (hex_hi b), (hex_lo b). split; [exact H1|].
  split; [rewrite <- H2; f_equal; lia|].
  destruct (digit_value_hex b) as [-> ->].
  pose proof (Z.div_mod (to_Z b) 16). lia.
Qed.

(** X6.  The bytes of a decoded id have the value of their two
    characters read as a hexadecimal number, high digit first: in an
    accepted header, byte [i] of the trace id is
    [16 * digit(header[3+2i]) + digit(header[4+2i])], and byte [i] of
    the parent id is [16 * digit(header[36+2i]) + digit(header[37+2i])],
    with ['0'..'9'] worth 0..9 and ['a'..'f'] worth 10..15. *)
Theorem decoded_byte_value (h : list byte) (r : results) :
  outcome (DecodeTraceparent h) = Some r → err r = None →
  (∀ (i : nat) (b : byte), tid r !! i = Some b →
     ∃ c1 c2 : byte,
       h !! (3 + 2 * i)%nat = Some c1 ∧ h !! (4 + 2 * i)%nat = Some c2 ∧
       is_lower_hex c1 ∧ is_lower_hex c2 ∧
       to_Z b = 16 * digit_value c1 + digit_value c2) ∧
  (∀ (i : nat) (b : byte), pid r !! i = Some b →
     ∃ c1 c2 : byte,
       h !! (36 + 2 * i)%nat = Some c1 ∧ h !! (37 + 2 * i)%nat = Some c2 ∧
       is_lower_hex c1 ∧ is_lower_hex c2 ∧
       to_Z b = 16 * digit_value c1 + digit_value c2).
Proof.
  intros Hout Herr.
  destruct (accepted_is_layout h r Hout Herr)
    as (f & ts & ps & -> & Hp & Hlts & Hts & _ & Hlps & Hps & _ & _).
  cbn [tid pid]. split.
  - intros i b Hb.
    pose proof (lookup_lt_Some _ _ _ Hb) as Hi.
    destruct (slot_byte_value h 3 ts i b) as (c1 & c2 & H1 & H2 & Hval);
      [rewrite Hlts; exact Hts | exact Hb |].
    exists c1, c2. do 2 (split; [assumption|]).
    split; [apply (trace_slot_lower h ts (3 + 2 * i) c1 Hlts Hts); [lia | exact H1]|].
    split; [apply (trace_slot_lower h ts (4 + 2 * i) c2 Hlts Hts); [lia | exact H2]|].
    exact Hval.
  - intros i b Hb.
    pose proof (lookup_lt_Some _ _ _ Hb) as Hi.
    destruct (slot_byte_value h 36 ps i b) as (c1 & c2 & H1 & H2 & Hval);
      [rewrite Hlps; exact Hps | exact Hb |].
    exists c1, c2. do 2 (split; [assumption|]).
    split; [apply (parent_slot_lower h ps (36 + 2 * i) c1 Hlps Hps); [lia | exact H1]|].
    split; [apply (parent_slot_lower h ps (37 + 2 * i) c2 Hlps Hps); [lia | exact H2]|].
    exact Hval.
Qed.

Lemma decoded_byte_value_witness :
  (outcome (DecodeTraceparent example_header) =
     Some (Results x00 example_tid example_pid x01 None) ∧
   err (Results x00 example_tid example_pid x01 None) = None) ∧
  (∀ (i : nat) (b : byte), example_tid !! i = Some b →
     ∃ c1 c2 : byte,
       example_header !! (3 + 2 * i)%nat = Some c1 ∧
       example_header !! (4 + 2 * i)%nat = Some c2 ∧
       is_lower_hex c1 ∧ is_lower_hex c2 ∧
       to_Z b = 16 * digit_value c1 + digit_value c2) ∧
  (∀ (i : nat) (b : byte), example_pid !! i = Some b →
     ∃ c1 c2 : byte,
       example_header !! (36 + 2 * i)%nat = Some c1 ∧
       example_header !! (37 + 2 * i)%nat = Some c2 ∧
       is_lower_hex c1 ∧ is_lower_hex c2 ∧
       to_Z b = 16 * digit_value c1 + digit_value c2).
Proof.
  split; [split; reflexivity|].
  exact (decoded_byte_value example_header
           (Results x00 example_tid example_pid x01 None) eq_refl eq_refl).
Defined.

(** ** Options, configuration and construction of the core *)

Section CoreProperties.

Context {Random Source Exporter Collector : Type}.
Context (Fill : Random → list byte → Random * list byte).
Context (grand_New : Source → Random).
Context (NewSpanCollector : list Exporter → Z → Z → Collector).

Lemma configure_all_app (a b : list (Option Random))
    (cfg : Configuration Random) :
  configure_all (a ++ b) cfg =
  match configure_all a cfg with
  | None => None
  | Some cfg' => configure_all b cfg'
  end.
Proof.
  revert cfg. induction a as [|opt a IH]; intros cfg; simpl; [reflexivity|].
  destruct (Configure opt cfg); [apply IH | reflexivity].
Qed.

Lemma configure_all_package (opts : list (Option Random)) :
  ∀ cfg : Configuration Random,
  Forall package_option opts →
  configure_all opts cfg =
    Some (MkConfiguration
            (default (rand cfg) (last_randomizer opts))
            (default (batchTime cfg) (fst <$> last_batching opts))
            (default (batchCount cfg) (snd <$> last_batching opts))).
Proof.
  induction opts as [|opt opts IH]; intros cfg Hall.
  - destruct cfg; reflexivity.
  - apply Forall_cons in Hall as [Hopt Hall].
    destruct opt as [|o|o|g]; try contradiction; simpl;
      rewrite (IH _ Hall); simpl;
      destruct (last_randomizer opts), (last_batching opts); reflexivity.
Qed.

Lemma configure_all_nil (opts : list (Option Random)) :
  ∀ cfg : Configuration Random, configure_all opts cfg = None ↔ NilOption ∈ opts.
Proof.
  induction opts as [|opt opts IH]; intros cfg; simpl.
  - split; [discriminate | intros H; inversion H].
  - rewrite elem_of_cons. destruct opt as [|o|o|g]; simpl;
      rewrite ?IH; split; auto; intros [E|H]; auto; discriminate E.
Qed.

Lemma configure_all_batching (opts : list (Option Random)) :
  ∀ cfg : Configuration Random,
  Forall batching_option opts →
  ∃ cfg', configure_all opts cfg = Some cfg' ∧ rand cfg' = rand cfg.
Proof.
  induction opts as [|opt opts IH]; intros cfg Hall.
  - exists cfg. auto.
  - apply Forall_cons in Hall as [Hopt Hall].
    destruct opt as [|o|o|g]; try contradiction. simpl.
    destruct (IH (batchOption_Configure o cfg) Hall) as (cfg' & -> & Hr).
    exists cfg'. auto.
Qed.

(** X7.  Options are applied in order and the last one of each kind
    wins.  For options built by [UseRandomizer] and [UseBatching],
    [newConfiguration] returns the thresholds of the last batching
    option (zero and zero when there is none) and the randomizer of the
    last randomizer option; when there is none, or when it was given
    [nil], the randomizer is [grand.New] of a new source, and the error
    of [grand.NewSource] is the only way to fail. *)
Theorem newConfiguration_last_wins (new_source : Source + error)
    (opts : list (Option Random)) :
  Forall package_option opts →
  newConfiguration grand_New new_source opts =
    let t := default 0 (fst <$> last_batching opts) in
    let n := default 0 (snd <$> last_batching opts) in
    match default None (last_randomizer opts), new_source with
    | Some g, _ => Some (inl (MkConfiguration (Some g) t n))
    | None, inl src => Some (inl (MkConfiguration (Some (grand_New src)) t n))
    | None, inr e => Some (inr e)
    end.
Proof.
  intros Hall. unfold newConfiguration.
  rewrite (configure_all_package opts _ Hall). cbn [rand batchTime batchCount].
  destruct (default None (last_randomizer opts)) as [g|]; [reflexivity|].
  destruct new_source; reflexivity.
Qed.

(** X8.  A batching option and a randomizer option that follow each
    other can be swapped, whatever options come before and after them:
    the two configure disjoint fields. *)
Theorem batching_randomizer_commute (new_source : Source + error)
    (pre post : list (Option Random)) (t n : Z) (r : option Random) :
  newConfiguration grand_New new_source
    (pre ++ UseBatching t n :: UseRandomizer r :: post) =
  newConfiguration grand_New new_source
    (pre ++ UseRandomizer r :: UseBatching t n :: post).
Proof.
  unfold newConfiguration. rewrite !configure_all_app.
  destruct (configure_all pre _) as [cfg|]; reflexivity.
Qed.

(** X9.  Nothing guards the loop over the options against a [nil]
    option: when the list holds one, [newConfiguration] and
    [NewTraceCore] panic, wherever it stands in the list, whatever the
    other options are and whatever [grand.NewSource] would return. *)
Theorem nil_option_panics (new_source : Source + error)
    (exps : list Exporter) (opts : list (Option Random)) :
  NilOption ∈ opts →
  newConfiguration grand_New new_source opts = None ∧
  NewTraceCore grand_New NewSpanCollector new_source exps opts = None.
Proof.
  intros Hnil.
  apply (configure_all_nil opts (MkConfiguration None 0 0)) in Hnil.
  unfold NewTraceCore, newConfiguration. rewrite Hnil. split; reflexivity.
Qed.

(** X10.  What the options do to the core.  For options built by
    [UseRandomizer] and [UseBatching], [NewTraceCore] builds the
    collector from the exporters it was given and the thresholds of the
    last batching option (zero and zero when there is none), keeps the
    same exporters, and takes the randomizer of the last randomizer
    option; when there is none, or when it was given [nil], it takes
    [grand.New] of a new source, and when that source cannot be made it
    returns the wrapped error and no core. *)
Theorem NewTraceCore_last_wins (new_source : Source + error)
    (exps : list Exporter) (opts : list (Option Random)) :
  Forall package_option opts →
  NewTraceCore grand_New NewSpanCollector new_source exps opts =
    let t := default 0 (fst <$> last_batching opts) in
    let n := default 0 (snd <$> last_batching opts) in
    let sc := NewSpanCollector exps t n in
    match default None (last_randomizer opts), new_source with
    | Some g, _ => Some (inl (MkTraceCore sc exps (Some g)))
    | None, inl src => Some (inl (MkTraceCore sc exps (Some (grand_New src))))
    | None, inr e => Some (inr (Errorf_w "failed to configure: " e))
    end.
Proof.
  intros Hall. unfold NewTraceCore, newConfiguration.
  rewrite (configure_all_package opts _ Hall). cbn [rand batchTime batchCount].
  destruct (default None (last_randomizer opts)) as [g|]; [reflexivity|].
  destruct new_source; reflexivity.
Qed.

(** X11.  [NewTraceCore] fails in one way only: the options leave no
    randomizer and [grand.NewSource] fails.  The error it returns reads
    "failed to configure: " followed by the message of that error, and
    unwraps to it; no core is returned. *)
Theorem NewTraceCore_error (new_source : Source + error)
    (exps : list Exporter) (opts : list (Option Random)) (e' : error) :
  NewTraceCore grand_New NewSpanCollector new_source exps opts = Some (inr e') ↔
  ∃ (e : error) (cfg : Configuration Random),
    configure_all opts (MkConfiguration None 0 0) = Some cfg ∧
    rand cfg = None ∧ new_source = inr e ∧
    Error e' = ("failed to configure: " ++ Error e)%string ∧
    Unwrap e' = Some e.
Proof.
  unfold NewTraceCore, newConfiguration. split.
  - destruct (configure_all opts _) as [cfg|]; [|discriminate].
    destruct (rand cfg) eqn:Hr; [discriminate|].
    destruct new_source as [src|e]; [discriminate|].
    intros [= <-]. exists e, cfg. auto 10.
  - intros (e & cfg & -> & -> & -> & Hmsg & Hun).
    destruct e' as [m|m c]; [discriminate Hun|].
    injection Hun as ->. simpl in Hmsg. subst m. reflexivity.
Qed.

(** X12.  A randomizer given with [UseRandomizer] makes the
    construction independent of the entropy source: when the options
    after it are batching options and no option before it is [nil],
    [NewTraceCore] returns a core with that randomizer, also when
    [grand.NewSource] would fail. *)
Theorem randomizer_makes_infallible (new_source : Source + error)
    (exps : list Exporter) (pre post : list (Option Random)) (g : Random) :
  NilOption ∉ pre → Forall batching_option post →
  ∃ trc : TraceCore Random Exporter Collector,
    NewTraceCore grand_New NewSpanCollector new_source exps
      (pre ++ UseRandomizer (Some g) :: post) = Some (inl trc) ∧
    tc_rand trc = Some g ∧ exporters trc = exps.
Proof.
  intros Hpre Hpost. unfold NewTraceCore, newConfiguration.
  rewrite configure_all_app.
  destruct (configure_all pre _) as [cfg|] eqn:Hcfg;
    [|apply configure_all_nil in Hcfg; contradiction].
  cbn [configure_all Configure UseRandomizer].
  destruct (configure_all_batching post
              (randOption_Configure (MkRandOption (Some g)) cfg) Hpost)
    as (cfg' & -> & Hr).
  cbn [rand randOption_Configure ro_rand] in Hr. rewrite Hr.
  eexists. split; [reflexivity|]. split; [exact Hr | reflexivity].
Qed.

(** X13.  Ids from the core go through the header codec.  On a core
    with a randomizer (any core that [NewTraceCore] returns), and for a
    randomizer that fills the buffer it is given, [CreateTraceId] and
    [CreateSpanId] return 16 and 8 bytes and leave collector and
    exporters alone; [EncodeTraceparent] turns them into a 55-byte
    header, and [DecodeTraceparent] gives them back from it unless one
    of them is all-zero, which that function reports as an error: no id
    is checked when it is created. *)
Theorem created_ids_roundtrip (trc : TraceCore Random Exporter Collector)
    (f : byte) :
  (∀ g buf, length (Fill g buf).2 = length buf) →
  is_Some (tc_rand trc) → f = x00 ∨ f = x01 →
  ∃ (t s : list byte) (trc1 trc2 : TraceCore Random Exporter Collector)
    (h : list byte) (r : results),
    CreateTraceId Fill trc = Some (t, trc1) ∧
    CreateSpanId Fill trc1 = Some (s, trc2) ∧
    length t = 16%nat ∧ length s = 8%nat ∧
    collector trc2 = collector trc ∧ exporters trc2 = exporters trc ∧
    outcome (EncodeTraceparent x00 t s f) = Some h ∧ length h = 55%nat ∧
    outcome (DecodeTraceparent h) = Some r ∧
    (err r = None ↔ ¬ all_zero t ∧ ¬ all_zero s) ∧
    (err r = None → r = Results x00 t s f None).
Proof.
  intros Hfill [g Hg] Hf.
  pose proof (Hfill g (replicate 16 x00)) as Ht.
  destruct (Fill g (replicate 16 x00)) as [g1 t] eqn:HF1. cbn [snd] in Ht.
  rewrite length_replicate in Ht.
  pose proof (Hfill g1 (replicate 8 x00)) as Hs.
  destruct (Fill g1 (replicate 8 x00)) as [g2 s] eqn:HF2. cbn [snd] in Hs.
  rewrite length_replicate in Hs.
  destruct (DecodeTraceparent_decodes (layout x00 t s f)) as (r & Hout & _).
  exists t, s, (MkTraceCore (collector trc) (exporters trc) (Some g1)),
    (MkTraceCore (collector trc) (exporters trc) (Some g2)),
    (layout x00 t s f), r.
  split; [unfold CreateTraceId, fill_id; rewrite Hg, HF1; reflexivity|].
  split; [unfold CreateSpanId, fill_id; cbn [tc_rand]; rewrite HF2; reflexivity|].
  do 2 (split; [assumption|]).
  do 2 (split; [reflexivity|]).
  split; [apply EncodeTraceparent_layout; assumption|].
  split; [apply (layout_slots x00 t s f Ht Hs)|].
  split; [exact Hout|].
  destruct (decode_layout t s f r Ht Hs Hf Hout)
    as [[Hz ->]|[(Hnz & Hz & ->)|(Hnz & Hnz' & ->)]]; cbn [err].
  - split; [split; [discriminate | tauto] | discriminate].
  - split; [split; [discriminate | tauto] | discriminate].
  - split; [tauto | reflexivity].
Qed.

End CoreProperties.

Lemma newConfiguration_last_wins_witness :
  Forall package_option
    [UseBatching 5 10; UseRandomizer (Some 7%nat); UseBatching 1 2;
     UseRandomizer None] ∧
  newConfiguration sample_New (inl tt)
    [UseBatching 5 10; UseRandomizer (Some 7%nat); UseBatching 1 2;
     UseRandomizer None] =
    Some (inl (MkConfiguration (Some 1%nat) 1 2)).
Proof.
  assert (Forall package_option
            [UseBatching 5 10; UseRandomizer (Some 7%nat); UseBatching 1 2;
             @UseRandomizer nat None]) as Hall
    by (repeat constructor).
  split; [exact Hall|].
  exact (newConfiguration_last_wins sample_New (inl tt) _ Hall).
Defined.

Lemma nil_option_panics_witness :
  (NilOption ∈ [UseBatching 5 10; NilOption; UseRandomizer (Some 7%nat)]) ∧
  newConfiguration sample_New (inl tt)
    [UseBatching 5 10; NilOption; UseRandomizer (Some 7%nat)] = None ∧
  NewTraceCore sample_New sample_collector (inl tt) [3; 4]%nat
    [UseBatching 5 10; NilOption; UseRandomizer (Some 7%nat)] = None.
Proof.
  assert (NilOption ∈ [UseBatching 5 10; NilOption;
                       UseRandomizer (Some 7%nat)]) as Hnil
    by (apply elem_of_cons; right; apply elem_of_cons; left; reflexivity).
  split; [exact Hnil|].
  exact (nil_option_panics sample_New sample_collector (inl tt) [3; 4]%nat
           _ Hnil).
Defined.

Lemma NewTraceCore_last_wins_witness :
  Forall package_option
    [UseBatching 5 10; UseRandomizer (Some 7%nat); UseBatching 1 2] ∧
  NewTraceCore sample_New sample_collector
    (inr (ErrorString "no entropy")) [3; 4]%nat
    [UseBatching 5 10; UseRandomizer (Some 7%nat); UseBatching 1 2] =
    Some (inl (MkTraceCore ([3; 4]%nat, 1, 2) [3; 4]%nat (Some 7%nat))).
Proof.
  assert (Forall package_option
            [UseBatching 5 10; UseRandomizer (Some 7%nat);
             @UseBatching nat 1 2]) as Hall
    by (repeat constructor).
  split; [exact Hall|].
  exact (NewTraceCore_last_wins sample_New sample_collector
           (inr (ErrorString "no entropy")) [3; 4]%nat _ Hall).
Defined.

Lemma randomizer_makes_infallible_witness :
  ((NilOption ∉ [@UseBatching nat 5 10]) ∧
   Forall batching_option [@UseBatching nat 1 2]) ∧
  ∃ trc : TraceCore nat nat (list nat * Z * Z),
    NewTraceCore sample_New sample_collector
      (inr (ErrorString "no entropy")) [3; 4]%nat
      ([UseBatching 5 10] ++ UseRandomizer (Some 7%nat) :: [UseBatching 1 2]) =
      Some (inl trc) ∧
    tc_rand trc = Some 7%nat ∧ exporters trc = [3; 4]%nat.
Proof.
  assert (NilOption ∉ [@UseBatching nat 5 10]) as Hpre.
  { intros H. apply elem_of_cons in H as [H|H]; [discriminate H | inversion H]. }
  assert (Forall batching_option [@UseBatching nat 1 2]) as Hpost
    by (repeat constructor).
  split; [split; assumption|].
  exact (randomizer_makes_infallible sample_New sample_collector
           (inr (ErrorString "no entropy")) [3; 4]%nat _ _ 7%nat Hpre Hpost).
Defined.

Lemma created_ids_roundtrip_witness :
  ((∀ (g : nat) (buf : list byte), length (sample_Fill g buf).2 = length buf) ∧
   is_Some (tc_rand (MkTraceCore ([3; 4]%nat, 5, 10) [3; 4]%nat (Some 1%nat))) ∧
   (x01 = x00 ∨ x01 = x01)) ∧
  ∃ (t s : list byte) (trc1 trc2 : TraceCore nat nat (list nat * Z * Z))
    (h : list byte) (r : results),
    CreateTraceId sample_Fill
      (MkTraceCore ([3; 4]%nat, 5, 10) [3; 4]%nat (Some 1%nat)) = Some (t, trc1) ∧
    CreateSpanId sample_Fill trc1 = Some (s, trc2) ∧
    length t = 16%nat ∧ length s = 8%nat ∧
    collector trc2 = ([3; 4]%nat, 5, 10) ∧ exporters trc2 = [3; 4]%nat ∧
    outcome (EncodeTraceparent x00 t s x01) = Some h ∧ length h = 55%nat ∧
    outcome (DecodeTraceparent h) = Some r ∧
    (err r = None ↔ ¬ all_zero t ∧ ¬ all_zero s) ∧
    (err r = None → r = Results x00 t s x01 None).
Proof.
  assert (∀ (g : nat) (buf : list byte),
            length (sample_Fill g buf).2 = length buf) as Hfill
    by (intros g buf; apply length_replicate).
  assert (is_Some (tc_rand (MkTraceCore ([3; 4]%nat, 5, 10) [3; 4]%nat
                              (Some 1%nat)))) as Hr by (eexists; reflexivity).
  split; [auto|].
  exact (created_ids_roundtrip sample_Fill
           (MkTraceCore ([3; 4]%nat, 5, 10) [3; 4]%nat (Some 1%nat)) x01
           Hfill Hr (or_intror eq_refl)).
Defined.
